(** * Cross-venue arbitrage matcher ([src/src/arbitrage.cpp])

    A shallow embedding of [find_best_arbitrage] and of the lambda
    [update_volume] it calls, followed by the properties the specification
    states about them; and of [parse_key] and [build_entries], which build
    the books, and of the total [print_trades] adds up, followed by what the
    code shows of them.

    Numbers are modelled the way the program holds them:

    - [double] is IEEE-754 binary64, Rocq's primitive [float]; every
      arithmetic operation is the correctly rounded one, taken one operation
      at a time (no fused multiply-add, no excess precision), and the
      comparisons [<] and [==] are the IEEE ones (false on NaN, [+0 == -0]).
    - [long] is the 64-bit signed integer of the LP64 data model, held as a
      [Z]; the implicit conversion [long -> double] rounds to nearest even
      ([of_long]) and the conversion [double -> long] truncates toward zero
      and has no defined result when the truncated value does not fit
      ([to_long] returns [None]).
    - [std::unordered_map<std::string, Entry>] is an association list in the
      map's iteration order.  The matcher never inserts or erases, so that
      order is the same in every scan of one run.
    - The [while (true)] loop is run on fuel, the number of passes allowed;
      a run that is still looping when the fuel is spent is [OutOfFuel], so
      "the function returns" is a statement that some fuel gives
      [Returned].
    - [size_t] is 64 bits wide, with its wrap-around written out; a
      [std::string] is a [string], of a length below [npos] where that
      matters; an exception that leaves a function is [None].
    - [std::stod] belongs to the C++ library, not to the program:
      [parse_key] and [build_entries] take it as their argument [stod], and
      what is proved of them holds whatever [stod] computes.
    - Of [print_trades] the accumulation of [total_profit] is modelled, not
      the text it prints; [print_order_book] only prints. *)

From Stdlib Require Import ZArith QArith List String Ascii Bool Lia Permutation.
From Stdlib Require Import Uint63 Floats.
Import ListNotations.

Local Open Scope Z_scope.
#[local] Set Warnings "-inexact-float".

(* ################################################################# *)
(** * Definitions *)
(* ################################################################# *)

(* ================================================================= *)
(** ** Binary64: the order, and the conversions from and to [long] *)
(* ================================================================= *)

Module F64.

(** *** The two implicit conversions of the program *)

(** Range of [long]. *)
Definition LONG_MIN : Z := - 2 ^ 63.

Definition LONG_MAX : Z := 2 ^ 63 - 1.

(** [(double) z] for a [long] [z]: the nearest binary64, ties to even.
    [of_uint63] is that conversion on the non-negative integers below
    [2^63]; the negative ones go by symmetry, [LONG_MIN] by its value. *)
Definition of_long (z : Z) : float :=
  if z =? LONG_MIN then (-9223372036854775808)%float
  else if z <? 0 then (- of_uint63 (Uint63.of_Z (- z)))%float
  else of_uint63 (Uint63.of_Z z).

(** The integer part of a finite value, toward zero. *)
Definition SFtrunc (x : spec_float) : option Z :=
  match x with
  | S754_zero _ => Some 0
  | S754_finite s m e => Some (cond_Zopp s (Z.shiftl (Zpos m) e))
  | S754_infinity _ | S754_nan => None
  end.

(** [(long) x] for a [double] [x]; [None] where C++ leaves it undefined:
    on NaN, on the infinities, and when the integer part is not a [long]. *)
Definition to_long (x : float) : option Z :=
  match SFtrunc (Prim2SF x) with
  | Some z => if (LONG_MIN <=? z) && (z <=? LONG_MAX) then Some z else None
  | None => None
  end.

(** *** Notions the proofs about binary64 use *)

Definition is_nan (x : float) : Prop := Prim2SF x = S754_nan.

(** A key whose lexicographic order is the order of the non-NaN values. *)
Definition SFkey (x : spec_float) : Z * Z * Z :=
  match x with
  | S754_infinity true => (-2, 0, 0)
  | S754_finite true m e => (-1, - e, - Zpos m)
  | S754_zero _ | S754_nan => (0, 0, 0)
  | S754_finite false m e => (1, e, Zpos m)
  | S754_infinity false => (2, 0, 0)
  end.

Definition key (x : float) : Z * Z * Z := SFkey (Prim2SF x).

(** The lexicographic order on keys. *)
Definition klt (k1 k2 : Z * Z * Z) : Prop :=
  let '(a1, b1, c1) := k1 in
  let '(a2, b2, c2) := k2 in
  a1 < a2 \/ (a1 = a2 /\ (b1 < b2 \/ (b1 = b2 /\ c1 < c2))).

(** Neither NaN nor infinite. *)
Definition SFfin (x : spec_float) : Prop :=
  match x with S754_zero _ | S754_finite _ _ _ => True | _ => False end.

(** The normal form of the positive integer [c < 2^53]: mantissa shifted up
    to 53 bits. *)
Definition canon (s : bool) (c : positive) : spec_float :=
  S754_finite s (Z.to_pos (Zpos c * 2 ^ (53 - Zpos (Pos.size c))))
              (Zpos (Pos.size c) - 53).

(** Zero, NaN, or carrying the sign [s]. *)
Definition SFsigned (s : bool) (x : spec_float) : Prop :=
  match x with
  | S754_zero _ | S754_nan => True
  | S754_infinity s' | S754_finite s' _ _ => s' = s
  end.

(** Zero, positive, or [+infinity]: neither negative nor NaN. *)
Definition SFnonneg (x : spec_float) : Prop :=
  match x with
  | S754_zero _ | S754_finite false _ _ | S754_infinity false => True
  | _ => False
  end.

(** The greatest [long] whose [double] is below [2^63]: from
    [2^63 - 512] on a [long] converts to [2^63], and [2^63] does not
    convert back. *)
Definition SAFE_MAX : Z := 2 ^ 63 - 513.

(** Zero, or finite with a mantissa of at most 53 bits and an exponent of at
    most 10: a value below [2^63] in magnitude. *)
Definition SFsmall (x : spec_float) : Prop :=
  match x with
  | S754_zero _ => True
  | S754_finite _ m e => Zpos m < 2 ^ 53 /\ e <= 10
  | _ => False
  end.

End F64.

Import F64.

(* ================================================================= *)
(** ** Data model *)
(* ================================================================= *)

(** [struct Entry]: one bid or ask of an order book. *)
Record Entry := mkEntry {
  exchange : string;
  fee : float;
  price : float;
  volume : Z
}.

(** [struct Trade]: one executed arbitrage trade.  The C++ field [volume]
    is [trade_volume] here, the name [volume] being taken by [Entry]. *)
Record Trade := mkTrade {
  buy_exchange : string;
  sell_exchange : string;
  buy_fee : float;
  sell_fee : float;
  buy_price : float;
  sell_price : float;
  trade_volume : Z;
  profit_per_unit : float;
  net_profit : float
}.

(** [std::unordered_map<std::string, Entry>], in iteration order. *)
Definition book := list (string * Entry).

(** The entry [e] with its [volume] assigned; nothing else is ever written. *)
Definition set_volume (e : Entry) (v : Z) : Entry :=
  mkEntry (exchange e) (fee e) (price e) v.

(* ================================================================= *)
(** ** The matcher *)
(* ================================================================= *)

(** State of one scan: [best_trade] and [best_profit_per_unit]. *)
Definition scan_state := (option Trade * float)%type.

(** Body of the inner loop (lines 73-93) for one ask and one bid. *)
Definition consider (ask bid : Entry) (st : scan_state) : scan_state :=
  if volume bid <=? 0 then st
  else if (exchange ask =? exchange bid)%string then st
  else
    let effective_cost := (price ask * (1 + fee ask))%float in
    let effective_proceed := (price bid * (1 - fee bid))%float in
    let profit_per_unit := (effective_proceed - effective_cost)%float in
    if (snd st <? profit_per_unit)%float then
      let trade_qty := Z.min (volume ask) (volume bid) in
      let net_profit := (profit_per_unit * of_long trade_qty)%float in
      (Some (mkTrade (exchange ask) (exchange bid) (fee ask) (fee bid)
                     (price ask) (price bid) trade_qty profit_per_unit net_profit),
       profit_per_unit)
    else st.

(** The inner loop over the bids (lines 72-94). *)
Definition scan_bids (ask : Entry) (bids : book) (st : scan_state) : scan_state :=
  fold_left (fun st kb => consider ask (snd kb) st) bids st.

(** The outer loop over the asks (lines 67-95). *)
Definition scan_asks (asks bids : book) (st : scan_state) : scan_state :=
  fold_left
    (fun st ka => if volume (snd ka) <=? 0 then st else scan_bids (snd ka) bids st)
    asks st.

(** One full scan, from [best_trade = nullopt], [best_profit_per_unit = 0.0]. *)
Definition best_arbitrage (bids asks : book) : scan_state :=
  scan_asks asks bids (None, 0%float).

(** The lambda [update_volume] (lines 105-115): the first entry whose
    exchange, fee and price compare equal gets [entry.volume -= trade_qty],
    a subtraction carried out in [double] and converted back to [long]. *)
Fixpoint update_volume (bk : book) (exch : string) (fee0 price0 trade_qty : float)
  : option book :=
  match bk with
  | [] => Some []
  | (k, entry) :: rest =>
      if (exchange entry =? exch)%string && (fee entry =? fee0)%float
         && (price entry =? price0)%float
      then
        match to_long (of_long (volume entry) - trade_qty)%float with
        | Some v => Some ((k, set_volume entry v) :: rest)
        | None => None
        end
      else
        match update_volume rest exch fee0 price0 trade_qty with
        | Some rest' => Some ((k, entry) :: rest')
        | None => None
        end
  end.

(** What one pass of the [while (true)] body does: it breaks out of the
    loop, it runs into an undefined conversion after pushing [t], or it goes
    on with the books updated. *)
Inductive step_result :=
| Stop
| Fault (t : Trade)
| Next (t : Trade) (bids asks : book).

(** One pass (lines 63-120): scan; with no trade, [break]; with one, push
    it and call [update_volume] on the asks, then on the bids, with the
    traded volume converted to [double] for the parameter [trade_qty]. *)
Definition step (bids asks : book) : step_result :=
  match fst (best_arbitrage bids asks) with
  | None => Stop
  | Some best_trade =>
      match update_volume asks (buy_exchange best_trade) (buy_fee best_trade)
                          (buy_price best_trade) (of_long (trade_volume best_trade)) with
      | None => Fault best_trade
      | Some asks' =>
          match update_volume bids (sell_exchange best_trade) (sell_fee best_trade)
                              (sell_price best_trade) (of_long (trade_volume best_trade)) with
          | None => Fault best_trade
          | Some bids' => Next best_trade bids' asks'
          end
      end
  end.

(** How a run ends: the function returns its trades and leaves the two maps;
    a conversion to [long] had no defined result; or the loop is still
    running when the fuel is spent. *)
Inductive outcome :=
| Returned (trades : list Trade) (bids asks : book)
| Undefined (trades : list Trade)
| OutOfFuel (trades : list Trade) (bids asks : book).

(** The main loop (lines 62-121); [fuel] bounds the number of passes. *)
Fixpoint loop (fuel : nat) (trades : list Trade) (bids asks : book) : outcome :=
  match fuel with
  | O => OutOfFuel trades bids asks
  | S fuel' =>
      match step bids asks with
      | Stop => Returned trades bids asks
      | Fault t => Undefined (trades ++ [t])
      | Next t bids' asks' => loop fuel' (trades ++ [t]) bids' asks'
      end
  end.

(** [find_best_arbitrage] (lines 56-124), from an empty [trades]. *)
Definition find_best_arbitrage (fuel : nat) (bids asks : book) : outcome :=
  loop fuel [] bids asks.

(** The trades pushed so far, however the run ended. *)
Definition trades_of (o : outcome) : list Trade :=
  match o with
  | Returned ts _ _ | Undefined ts | OutOfFuel ts _ _ => ts
  end.

(** The books [main] builds (lines 159-175), taken in the order the source
    lists them; [build_entries] splits each key into exchange and fee. *)
Definition sample_bids : book :=
  [ ("ex1-0.00024", mkEntry "ex1" 0.00024 0.95 10);
    ("ex2-0.0005", mkEntry "ex2" 0.0005 0.98 10);
    ("ex3-0.0002", mkEntry "ex3" 0.0002 1.00 5);
    ("ex4-0.00025", mkEntry "ex4" 0.00025 1.02 4);
    ("ex5-0", mkEntry "ex5" 0 0.94 11) ]%string%float.

Definition sample_asks : book :=
  [ ("ex1-0.00024", mkEntry "ex1" 0.00024 0.96 50);
    ("ex2-0.0005", mkEntry "ex2" 0.0005 1.03 8);
    ("ex3-0.0002", mkEntry "ex3" 0.0002 1.01 2);
    ("ex4-0.00025", mkEntry "ex4" 0.00025 1.04 5);
    ("ex5-0", mkEntry "ex5" 0 0.96 3) ]%string%float.

(* ================================================================= *)
(** ** Reading a scan: profit, unskipped pairs, selection *)
(* ================================================================= *)

(** Profit per unit of buying from [ask] and selling to [bid] (lines 80-83). *)
Definition profit (ask bid : Entry) : float :=
  (price bid * (1 - fee bid) - price ask * (1 + fee ask))%float.

(** The trade built for a pair (lines 87-91). *)
Definition trade_of (ask bid : Entry) : Trade :=
  mkTrade (exchange ask) (exchange bid) (fee ask) (fee bid) (price ask) (price bid)
          (Z.min (volume ask) (volume bid))
          (profit ask bid)
          (profit ask bid * of_long (Z.min (volume ask) (volume bid)))%float.

(** The pairs the scan does not skip: both volumes positive, venues differ. *)
Definition valid (ask bid : Entry) : bool :=
  (0 <? volume ask) && (0 <? volume bid) && negb (exchange ask =? exchange bid)%string.

(** All (ask, bid) pairs in the order the nested loops enumerate them. *)
Definition pairs (asks bids : book) : list (Entry * Entry) :=
  flat_map (fun ka => map (fun kb => (snd ka, snd kb)) bids) asks.

(** The scan seen on one pair. *)
Definition adopt (st : scan_state) (ab : Entry * Entry) : scan_state :=
  if valid (fst ab) (snd ab) && (snd st <? profit (fst ab) (snd ab))%float
  then (Some (trade_of (fst ab) (snd ab)), profit (fst ab) (snd ab))
  else st.

(** [(ask, bid)] is the pair a scan of [l], started at bound [b], ends on:
    it is in [l], not skipped, above [b]; no earlier pair reaches it and
    no later pair exceeds it. *)
Definition selected (l : list (Entry * Entry)) (b : float) (ask bid : Entry) : Prop :=
  exists l1 l2,
    l = l1 ++ (ask, bid) :: l2 /\
    valid ask bid = true /\
    (b <? profit ask bid)%float = true /\
    (forall x y, In (x, y) l1 -> valid x y = true ->
                 (profit ask bid <=? profit x y)%float = false) /\
    (forall x y, In (x, y) l2 -> valid x y = true ->
                 (profit ask bid <? profit x y)%float = false).

(* ================================================================= *)
(** ** Frames of a book *)
(* ================================================================= *)

(** The test of [update_volume] (lines 109-110). *)
Definition matches (entry : Entry) (exch : string) (fee0 price0 : float) : bool :=
  (exchange entry =? exch)%string && (fee entry =? fee0)%float
  && (price entry =? price0)%float.

(** Two entries that differ at most in their volume. *)
Definition same_static (e e' : Entry) : Prop :=
  exchange e' = exchange e /\ fee e' = fee e /\ price e' = price e.

(** Two books with the same keys in the same order, whose entries differ at
    most in their volumes. *)
Definition same_frame (bk bk' : book) : Prop :=
  Forall2 (fun ke ke' => fst ke' = fst ke /\ same_static (snd ke) (snd ke')) bk bk'.

(** An exhausted entry stays exhausted: a book after [update_volume] by a
    non-negative quantity has no positive volume where it had none. *)
Definition no_revival (bk bk' : book) : Prop :=
  Forall2 (fun ke ke' => same_static (snd ke) (snd ke') /\
                         (0 < volume (snd ke') -> 0 < volume (snd ke))) bk bk'.

(* ================================================================= *)
(** ** Properties of trade sequences *)
(* ================================================================= *)

(** A pair with positive volumes, differing venues and positive profit. *)
Definition profitable (ask bid : Entry) : bool :=
  valid ask bid && (0 <? profit ask bid)%float.

(** Consecutive trades: the later profit is not above the earlier one. *)
Definition non_increasing (ts : list Trade) : Prop :=
  forall i t1 t2,
    nth_error ts i = Some t1 -> nth_error ts (S i) = Some t2 ->
    (profit_per_unit t2 <=? profit_per_unit t1)%float = true.

(** Books on which nothing is profitable: the only bid is below the only
    other-venue ask, and the same-venue ask is skipped. *)
Definition idle_bids : book :=
  [ ("ex1-0", mkEntry "ex1" 0 0.95 10) ]%string%float.

Definition idle_asks : book :=
  [ ("ex1-0", mkEntry "ex1" 0 0.90 5); ("ex2-0", mkEntry "ex2" 0 0.96 7) ]%string%float.

(* ================================================================= *)
(** ** Well-formed books and reachable states *)
(* ================================================================= *)

(** The (exchange, fee, price) tuples of the book are unique: no entry
    compares equal, under the test of [update_volume], to an entry that
    comes after it.  The test is [==] on [double], so [+0.0] and [-0.0] are
    one fee, and a NaN equals nothing. *)
Fixpoint unique_tuples (bk : book) : bool :=
  match bk with
  | [] => true
  | (_, e) :: rest =>
      forallb (fun ke => negb (matches e (exchange (snd ke)) (fee (snd ke)) (price (snd ke))))
              rest
      && unique_tuples rest
  end.

(** Every volume of the book is in [[lo, hi]]. *)
Definition volumes_within (lo hi : Z) (bk : book) : bool :=
  forallb (fun ke => (lo <=? volume (snd ke)) && (volume (snd ke) <=? hi)) bk.

(** The states a run passes through, from the books it was called on. *)
Inductive reachable (bids0 asks0 : book) : book -> book -> Prop :=
| reach_start : reachable bids0 asks0 bids0 asks0
| reach_next bids asks t bids' asks' :
    reachable bids0 asks0 bids asks ->
    step bids asks = Next t bids' asks' ->
    reachable bids0 asks0 bids' asks'.

(** Books whose entries are unambiguous and whose volumes are [long]s. *)
Definition well_formed (bids asks : book) : Prop :=
  unique_tuples bids = true /\ unique_tuples asks = true /\
  volumes_within LONG_MIN LONG_MAX bids = true /\
  volumes_within LONG_MIN LONG_MAX asks = true.


(** Number of entries that still have volume. *)
Definition live (bk : book) : nat :=
  List.length (filter (fun ke => 0 <? volume (snd ke)) bk).

(* ================================================================= *)
(** ** Validated books *)
(* ================================================================= *)

(** Sum of the volumes of a book. *)
Fixpoint total_volume (bk : book) : Z :=
  match bk with
  | [] => 0
  | (_, e) :: rest => volume e + total_volume rest
  end.

(** Books whose entries are unambiguous and whose volumes are non-negative
    and below [2^53], where [long] and [double] agree. *)
Definition validated (bids asks : book) : Prop :=
  unique_tuples bids = true /\ unique_tuples asks = true /\
  volumes_within 0 (2 ^ 53 - 1) bids = true /\
  volumes_within 0 (2 ^ 53 - 1) asks = true.

(** From [bk] to [bk'] the entry of this exchange, fee and price, and no
    other, has changed, to a strictly smaller volume. *)
Definition reduced_in (bk bk' : book) (exch : string) (f p : float) : Prop :=
  exists l1 k e l2 v,
    bk = l1 ++ (k, e) :: l2 /\ bk' = l1 ++ (k, set_volume e v) :: l2 /\
    exchange e = exch /\ fee e = f /\ price e = p /\ v < volume e.

(* ================================================================= *)
(** ** Particular books *)
(* ================================================================= *)

(** Two asks of one exchange, fee and price, and two such bids; in each
    book the twin that comes first in iteration order is exhausted, and [w],
    [w'] are the volumes of those two.  The keys are ones [build_entries]
    parses to the same exchange and fee. *)
Definition twin_asks (w : Z) : book :=
  [ ("ex1-0", mkEntry "ex1" 0 1 w); ("ex1-0.0", mkEntry "ex1" 0 1 1) ]%string%float.

Definition twin_bids (w' : Z) : book :=
  [ ("ex2-0", mkEntry "ex2" 0 2 w'); ("ex2-0.0", mkEntry "ex2" 0 2 1) ]%string%float.

(** An ask of the greatest [long] volume against a bid of volume 1. *)
Definition huge_asks : book := [ ("a", mkEntry "ex1" 0 1 LONG_MAX) ]%string%float.

Definition unit_bids : book := [ ("b", mkEntry "ex2" 0 2 1) ]%string%float.

(** One profitable pair, and a bid of negative volume that is never used. *)
Definition short_asks : book := [ ("a", mkEntry "ex1" 0 1 5) ]%string%float.

Definition short_bids : book :=
  [ ("b", mkEntry "ex2" 0 2 5); ("c", mkEntry "ex3" 0 0.5 (-100)) ]%string%float.

(** Volumes above [2^53]: one bid that two asks sell into. *)
Definition wide_bid : Entry := mkEntry "ex2" 0 2 (2 ^ 53 + 3).

Definition wide_bids : book := [ ("b", wide_bid) ]%string.

Definition wide_asks : book :=
  [ ("a1", mkEntry "ex1" 0 1 (2 ^ 53 + 1)); ("a2", mkEntry "ex3" 0 1.5 10) ]%string%float.

(** A bid of volume [2^53 + 3] against an ask of volume 1. *)
Definition odd_bid : Entry := mkEntry "ex2" 0 2 (2 ^ 53 + 3).

Definition odd_bids : book := [ ("b", odd_bid) ]%string.

Definition one_asks : book := [ ("a", mkEntry "ex1" 0 1 1) ]%string%float.

(* ================================================================= *)
(** ** Conservation of volume *)
(* ================================================================= *)

(** Quantity the trades [ts] bought from an entry like [e] / sold to one. *)
Fixpoint bought (ts : list Trade) (e : Entry) : Z :=
  match ts with
  | [] => 0
  | t :: ts' =>
      (if matches e (buy_exchange t) (buy_fee t) (buy_price t) then trade_volume t else 0)
      + bought ts' e
  end.

Fixpoint sold (ts : list Trade) (e : Entry) : Z :=
  match ts with
  | [] => 0
  | t :: ts' =>
      (if matches e (sell_exchange t) (sell_fee t) (sell_price t) then trade_volume t else 0)
      + sold ts' e
  end.

(** [bk] is [bk0] after the trades [ts], [consumed] telling what they took
    from an entry: same keys, same exchanges, fees and prices, and every
    volume is the original one less what was consumed, and not negative. *)
Definition conserved (consumed : Entry -> Z) (bk0 bk : book) : Prop :=
  Forall2 (fun ke0 ke =>
             fst ke = fst ke0 /\ same_static (snd ke0) (snd ke) /\
             0 <= consumed (snd ke0) <= volume (snd ke0) /\
             volume (snd ke) = volume (snd ke0) - consumed (snd ke0))
          bk0 bk.

(* ================================================================= *)
(** ** Building the books: [parse_key] and [build_entries] *)
(* ================================================================= *)

(** [std::string::npos], the greatest [size_t]. *)
Definition npos : Z := 2 ^ 64 - 1.

(** [s.find(c)]: the index of the first [c] in [s], [npos] when there is
    none; [find_from] carries the index of the character it looks at. *)
Fixpoint find_from (c : ascii) (s : string) (i : Z) : Z :=
  match s with
  | EmptyString => npos
  | String a s' => if Ascii.eqb a c then i else find_from c s' (i + 1)
  end.

Definition find (c : ascii) (s : string) : Z := find_from c s 0.

(** [s.substr(pos, count)]: [std::out_of_range] ([None]) when [pos] is past
    the end of [s]; else the characters from [pos] on, [count] of them or as
    many as there are. *)
Definition substr (s : string) (pos count : Z) : option string :=
  let size := Z.of_nat (String.length s) in
  if size <? pos then None
  else Some (substring (Z.to_nat pos) (Z.to_nat (Z.min count (size - pos))) s).

(** [parse_key] (lines 33-38).  [std::stod] is the C++ library's: it is the
    argument [stod], [None] standing for the exception it throws, and what
    is proved of [parse_key] holds whatever [stod] computes.  [pos + 1] is
    an addition of [size_t], so [npos + 1] is 0; the second [substr] has
    its default [count], [npos]. *)
Definition parse_key (stod : string -> option float) (key : string)
  : option (string * float) :=
  let pos := find "-" key in
  match substr key 0 pos with
  | None => None
  | Some exch =>
      match substr key ((pos + 1) mod 2 ^ 64) npos with
      | None => None
      | Some text =>
          match stod text with
          | Some fee => Some (exch, fee)
          | None => None
          end
      end
  end.

(** [std::unordered_map<std::string, std::pair<double, long>>], the maps
    [main] starts from, in iteration order. *)
Definition raw_book := list (string * (float * Z)).

(** [entries[key] = e]: the entry under [key] is replaced, or a new one is
    added.  Where a new key comes in the iteration order of the map is not
    fixed by the language; it is put last here, and the properties of
    [build_entries] are stated on [lookup], which does not see the order. *)
Fixpoint assign (entries : book) (key : string) (e : Entry) : book :=
  match entries with
  | [] => [(key, e)]
  | (k, e0) :: rest =>
      if (k =? key)%string then (k, e) :: rest else (k, e0) :: assign rest key e
  end.

(** The entry under [key], if there is one. *)
Fixpoint lookup (entries : book) (key : string) : option Entry :=
  match entries with
  | [] => None
  | (k, e) :: rest => if (k =? key)%string then Some e else lookup rest key
  end.

(** The loop of [build_entries] (lines 45-49) over what is left of [raw];
    an exception of [parse_key] leaves the function ([None]). *)
Fixpoint build_from (stod : string -> option float) (raw : raw_book) (entries : book)
  : option book :=
  match raw with
  | [] => Some entries
  | (key, (price, volume)) :: raw' =>
      match parse_key stod key with
      | Some (exchange, fee) =>
          build_from stod raw' (assign entries key (mkEntry exchange fee price volume))
      | None => None
      end
  end.

(** [build_entries] (lines 41-51), from an empty map. *)
Definition build_entries (stod : string -> option float) (raw : raw_book) : option book :=
  build_from stod raw [].

(** What [build_entries] makes of one element of [raw]. *)
Definition built (stod : string -> option float) (r : string * (float * Z))
  (ke : string * Entry) : Prop :=
  fst ke = fst r /\
  exists exch f, parse_key stod (fst r) = Some (exch, f) /\
                 snd ke = mkEntry exch f (fst (snd r)) (snd (snd r)).

(** The characters of a string, to say that a string has no dash. *)
Definition chars (s : string) : list ascii := list_ascii_of_string s.

(** The maps of [main] (lines 159-175). *)
Definition raw_bids : raw_book :=
  [ ("ex1-0.00024", (0.95%float, 10)); ("ex2-0.0005", (0.98%float, 10));
    ("ex3-0.0002", (1.00%float, 5)); ("ex4-0.00025", (1.02%float, 4));
    ("ex5-0", (0.94%float, 11)) ]%string.

Definition raw_asks : raw_book :=
  [ ("ex1-0.00024", (0.96%float, 50)); ("ex2-0.0005", (1.03%float, 8));
    ("ex3-0.0002", (1.01%float, 2)); ("ex4-0.00025", (1.04%float, 5));
    ("ex5-0", (0.96%float, 3)) ]%string.

(** The values of [std::stod] on the five fee texts of [main]; used only to
    run [build_entries] on the maps of [main]. *)
Definition stod_of_main (text : string) : option float :=
  if (text =? "0.00024")%string then Some 0.00024%float
  else if (text =? "0.0005")%string then Some 0.0005%float
  else if (text =? "0.0002")%string then Some 0.0002%float
  else if (text =? "0.00025")%string then Some 0.00025%float
  else if (text =? "0")%string then Some 0%float
  else None.

(* ================================================================= *)
(** ** The total of [print_trades] *)
(* ================================================================= *)

(** [total_profit] of [print_trades] (lines 128 and 140): from 0.0, the net
    profits added one after the other in [double]. *)
Definition total_profit (trades : list Trade) : float :=
  fold_left (fun total t => (total + net_profit t)%float) trades 0%float.

(** Sum of the traded volumes. *)
Fixpoint traded (ts : list Trade) : Z :=
  match ts with
  | [] => 0
  | t :: ts' => trade_volume t + traded ts'
  end.

(** The book has an entry of this exchange, fee and price. *)
Definition quotes (bk : book) (exch : string) (f p : float) : Prop :=
  exists k e, In (k, e) bk /\ exchange e = exch /\ fee e = f /\ price e = p.

(* ================================================================= *)
(** ** Bounded books, and the exact value of a [double] *)
(* ================================================================= *)

(** Books whose entries are unambiguous and whose volumes are [long]s of at
    most [SAFE_MAX]: what a run keeps of books with non-negative volumes up
    to [SAFE_MAX]. *)
Definition bounded (bids asks : book) : Prop :=
  unique_tuples bids = true /\ unique_tuples asks = true /\
  volumes_within LONG_MIN SAFE_MAX bids = true /\
  volumes_within LONG_MIN SAFE_MAX asks = true.

(** An ask of volume [SAFE_MAX + 1], the least whose [double] is [2^63]. *)
Definition edge_asks : book := [ ("a", mkEntry "ex1" 0 1 (SAFE_MAX + 1)) ]%string%float.

(** An ask of volume [2^53 + 3], for the bid of that volume. *)
Definition odd_asks : book := [ ("a", mkEntry "ex1" 0 1 (2 ^ 53 + 3)) ]%string%float.

(** The rational number a finite [double] stands for (0 for the others). *)
Definition SF2Q (x : spec_float) : Q :=
  match x with
  | S754_finite s m e => (inject_Z (cond_Zopp s (Zpos m)) * (2 # 1) ^ e)%Q
  | _ => 0%Q
  end.

Definition real (x : float) : Q := SF2Q (Prim2SF x).

(** The formulas in exact arithmetic, on the numbers a trade holds. *)
Definition exact_profit (t : Trade) : Q :=
  (real (sell_price t) * (1 - real (sell_fee t))
   - real (buy_price t) * (1 + real (buy_fee t)))%Q.

Definition exact_net_profit (t : Trade) : Q :=
  (real (profit_per_unit t) * inject_Z (trade_volume t))%Q.

(** Every number of the trade is finite. *)
Definition finite_trade (t : Trade) : bool :=
  forallb (fun x => match Prim2SF x with S754_zero _ | S754_finite _ _ _ => true | _ => false end)
          [buy_fee t; sell_fee t; buy_price t; sell_price t; profit_per_unit t; net_profit t].

(* ################################################################# *)
(** * Facts *)
(* ################################################################# *)

(* ================================================================= *)
(** ** Binary64 *)
(* ================================================================= *)

Module F64Facts.

(** *** The order of [double], read on keys *)

Lemma SFcompare_key x y :
  x <> S754_nan -> y <> S754_nan ->
  match SFcompare x y with
  | Some Lt => klt (SFkey x) (SFkey y)
  | Some Eq => SFkey x = SFkey y
  | Some Gt => klt (SFkey y) (SFkey x)
  | None => False
  end.
Proof.
  intros Hx Hy.
  destruct x as [sx|sx| |sx mx ex], y as [sy|sy| |sy my ey]; try congruence; simpl;
    try (destruct sx; simpl; try reflexivity; lia);
    try (destruct sy; simpl; try reflexivity; lia);
    try (destruct sx, sy; simpl; try reflexivity; lia).
  change (Pos.compare_cont Eq mx my) with (mx ?= my)%positive.
  destruct sx, sy; simpl; try lia;
    destruct (Z.compare_spec ex ey); simpl; try lia;
    destruct (Pos.compare_spec mx my); simpl; subst; try reflexivity; lia.
Qed.

Lemma SFcompare_nan_l y : SFcompare S754_nan y = None.
Proof. reflexivity. Qed.

Lemma SFcompare_nan_r x : SFcompare x S754_nan = None.
Proof. destruct x; reflexivity. Qed.

Lemma spec_float_nan_dec (x : spec_float) : {x = S754_nan} + {x <> S754_nan}.
Proof. destruct x; (left; reflexivity) || (right; discriminate). Qed.

Lemma klt_irrefl k : ~ klt k k.
Proof. destruct k as [[a b] c]; unfold klt; lia. Qed.

Lemma klt_trans k1 k2 k3 : klt k1 k2 -> klt k2 k3 -> klt k1 k3.
Proof.
  destruct k1 as [[a1 b1] c1], k2 as [[a2 b2] c2], k3 as [[a3 b3] c3].
  unfold klt; lia.
Qed.

Lemma klt_total k1 k2 : klt k1 k2 \/ k1 = k2 \/ klt k2 k1.
Proof.
  destruct k1 as [[a1 b1] c1], k2 as [[a2 b2] c2]. unfold klt.
  destruct (Z.lt_trichotomy a1 a2) as [?|[?|?]]; try lia.
  destruct (Z.lt_trichotomy b1 b2) as [?|[?|?]]; try lia.
  destruct (Z.lt_trichotomy c1 c2) as [?|[?|?]]; try lia.
  subst. right; left; reflexivity.
Qed.

Lemma klt_asym k1 k2 : klt k1 k2 -> ~ klt k2 k1.
Proof. intros H1 H2. exact (klt_irrefl _ (klt_trans _ _ _ H1 H2)). Qed.

Lemma klt_neq k1 k2 : klt k1 k2 -> k1 <> k2.
Proof. intros H E. rewrite E in H. exact (klt_irrefl _ H). Qed.

Lemma SFcompare_cases x y :
  ((x = S754_nan \/ y = S754_nan) /\ SFcompare x y = None) \/
  (x <> S754_nan /\ y <> S754_nan /\
   ((SFcompare x y = Some Lt /\ klt (SFkey x) (SFkey y)) \/
    (SFcompare x y = Some Eq /\ SFkey x = SFkey y) \/
    (SFcompare x y = Some Gt /\ klt (SFkey y) (SFkey x)))).
Proof.
  destruct (spec_float_nan_dec x) as [->|Hx];
    [left; split; [left; reflexivity | apply SFcompare_nan_l]|].
  destruct (spec_float_nan_dec y) as [->|Hy];
    [left; split; [right; reflexivity | apply SFcompare_nan_r]|].
  right. repeat split; try assumption.
  pose proof (SFcompare_key x y Hx Hy) as K.
  destruct (SFcompare x y) as [[]|]; tauto.
Qed.

(** The three comparisons of the program, read on keys. *)
Lemma ltb_iff x y :
  (x <? y)%float = true <-> ~ is_nan x /\ ~ is_nan y /\ klt (key x) (key y).
Proof.
  rewrite ltb_spec. unfold SFltb, is_nan, key.
  destruct (SFcompare_cases (Prim2SF x) (Prim2SF y))
    as [[N ->]|(Hx & Hy & [[-> K]|[[-> K]|[-> K]]])].
  - split; [discriminate | tauto].
  - tauto.
  - split; [discriminate | intros (_ & _ & H); destruct (klt_neq _ _ H K)].
  - split; [discriminate | intros (_ & _ & H); destruct (klt_asym _ _ H K)].
Qed.

Lemma eqb_iff x y :
  (x =? y)%float = true <-> ~ is_nan x /\ ~ is_nan y /\ key x = key y.
Proof.
  rewrite eqb_spec. unfold SFeqb, is_nan, key.
  destruct (SFcompare_cases (Prim2SF x) (Prim2SF y))
    as [[N ->]|(Hx & Hy & [[-> K]|[[-> K]|[-> K]]])].
  - split; [discriminate | tauto].
  - split; [discriminate | intros (_ & _ & H); destruct (klt_neq _ _ K H)].
  - tauto.
  - split; [discriminate | intros (_ & _ & H); symmetry in H; destruct (klt_neq _ _ K H)].
Qed.

Lemma leb_iff x y :
  (x <=? y)%float = true <->
  ~ is_nan x /\ ~ is_nan y /\ (klt (key x) (key y) \/ key x = key y).
Proof.
  rewrite leb_spec. unfold SFleb, is_nan, key.
  destruct (SFcompare_cases (Prim2SF x) (Prim2SF y))
    as [[N ->]|(Hx & Hy & [[-> K]|[[-> K]|[-> K]]])].
  - split; [discriminate | tauto].
  - tauto.
  - tauto.
  - split; [discriminate | intros (_ & _ & [H|H])];
      [destruct (klt_asym _ _ H K) | symmetry in H; destruct (klt_neq _ _ K H)].
Qed.

Lemma ltb_trans x y z :
  (x <? y)%float = true -> (y <? z)%float = true -> (x <? z)%float = true.
Proof.
  rewrite !ltb_iff. intros (Hx & _ & H1) (_ & Hz & H2).
  repeat split; try assumption. eapply klt_trans; eassumption.
Qed.

Lemma ltb_irrefl x : (x <? x)%float = false.
Proof.
  destruct (x <? x)%float eqn:E; [|reflexivity].
  apply ltb_iff in E. destruct E as (_ & _ & E). destruct (klt_irrefl _ E).
Qed.

Lemma ltb_not_nan_r x y : (x <? y)%float = true -> ~ is_nan y.
Proof. rewrite ltb_iff. tauto. Qed.

(** [x < y] excludes [y <= x]. *)
Lemma ltb_leb_false x y : (x <? y)%float = true -> (y <=? x)%float = false.
Proof.
  intros H. destruct (y <=? x)%float eqn:E; [|reflexivity].
  apply ltb_iff in H. apply leb_iff in E.
  destruct H as (_ & _ & H), E as (_ & _ & [E|E]); exfalso.
  - exact (klt_irrefl _ (klt_trans _ _ _ H E)).
  - rewrite E in H. exact (klt_irrefl _ H).
Qed.

(** On two numbers, "not less" is "greater or equal". *)
Lemma not_ltb_leb x y :
  ~ is_nan x -> ~ is_nan y -> (x <? y)%float = false -> (y <=? x)%float = true.
Proof.
  intros Hx Hy H. apply leb_iff. repeat split; try assumption.
  destruct (klt_total (key x) (key y)) as [K|[K|K]]; [exfalso | right; congruence | left; exact K].
  assert (T : (x <? y)%float = true) by (apply ltb_iff; tauto). congruence.
Qed.

(** A candidate rejected against [b] is not above-or-equal to a value that
    strictly exceeds [b]. *)
Lemma leb_false_below b x y :
  (b <? x)%float = false -> (b <? y)%float = true -> (y <=? x)%float = false.
Proof.
  intros H1 H2. destruct (y <=? x)%float eqn:E; [|reflexivity].
  apply leb_iff in E. destruct E as (Hy & Hx & E).
  assert (T : (b <? x)%float = true).
  { apply ltb_iff in H2. destruct H2 as (Hb & _ & H2). apply ltb_iff.
    repeat split; try assumption.
    destruct E as [E|E]; [eapply klt_trans; eassumption | rewrite <- E; exact H2]. }
  congruence.
Qed.

Lemma eqb_refl x : ~ is_nan x -> (x =? x)%float = true.
Proof. intros H. apply eqb_iff. tauto. Qed.

(** *** NaN propagates through the arithmetic *)

Lemma sub_not_nan x y : ~ is_nan (x - y)%float -> ~ is_nan x /\ ~ is_nan y.
Proof.
  unfold is_nan. rewrite FloatAxioms.sub_spec. unfold SF64sub.
  destruct (Prim2SF x), (Prim2SF y); simpl; intros H; split; congruence.
Qed.

Lemma add_not_nan x y : ~ is_nan (x + y)%float -> ~ is_nan x /\ ~ is_nan y.
Proof.
  unfold is_nan. rewrite FloatAxioms.add_spec. unfold SF64add.
  destruct (Prim2SF x), (Prim2SF y); simpl; intros H; split; congruence.
Qed.

Lemma mul_not_nan x y : ~ is_nan (x * y)%float -> ~ is_nan x /\ ~ is_nan y.
Proof.
  unfold is_nan. rewrite FloatAxioms.mul_spec. unfold SF64mul.
  destruct (Prim2SF x), (Prim2SF y); simpl; intros H; split; congruence.
Qed.

(** *** Sizes and shifts of mantissas *)

Lemma digits2_size p : digits2_pos p = Pos.size p.
Proof. induction p; simpl; congruence. Qed.

Lemma size_bounds p : 2 ^ (Zpos (Pos.size p) - 1) <= Zpos p < 2 ^ Zpos (Pos.size p).
Proof.
  induction p; cbn [Pos.size]; [| |simpl; lia];
    rewrite Pos2Z.inj_succ;
    replace (Z.succ (Zpos (Pos.size p)) - 1) with (Z.succ (Zpos (Pos.size p) - 1)) by lia;
    rewrite !Z.pow_succ_r by lia; lia.
Qed.

Lemma size_upper p n : 0 <= n -> Zpos p < 2 ^ n -> Zpos (Pos.size p) <= n.
Proof.
  intros Hn H. pose proof (size_bounds p).
  destruct (Z_le_gt_dec (Zpos (Pos.size p)) n) as [|Hgt]; [assumption|exfalso].
  assert (2 ^ n <= 2 ^ (Zpos (Pos.size p) - 1)) by (apply Z.pow_le_mono_r; lia). lia.
Qed.

Lemma size_unique p n : 2 ^ (n - 1) <= Zpos p < 2 ^ n -> Zpos (Pos.size p) = n.
Proof.
  intros H. pose proof (size_bounds p) as Hs.
  assert (0 < n).
  { destruct (Z_lt_le_dec 0 n); [assumption|].
    destruct (Z.eq_dec n 0); [subst; simpl in H; lia|].
    rewrite (Z.pow_neg_r 2 n) in H by lia. lia. }
  destruct (Z.lt_trichotomy (Zpos (Pos.size p)) n) as [Hlt|[Heq|Hgt]];
    [exfalso|assumption|exfalso].
  - assert (2 ^ Zpos (Pos.size p) <= 2 ^ (n - 1)) by (apply Z.pow_le_mono_r; lia). lia.
  - assert (2 ^ n <= 2 ^ (Zpos (Pos.size p) - 1)) by (apply Z.pow_le_mono_r; lia). lia.
Qed.

Lemma size_shift P c K :
  0 <= K -> Zpos P = Zpos c * 2 ^ K -> Zpos (Pos.size P) = Zpos (Pos.size c) + K.
Proof.
  intros HK HP. apply size_unique. pose proof (size_bounds c) as Hc. rewrite HP.
  replace (Zpos (Pos.size c) + K - 1) with (Zpos (Pos.size c) - 1 + K) by lia.
  rewrite !Z.pow_add_r by lia.
  assert (0 < 2 ^ K) by (apply Z.pow_pos_nonneg; lia).
  split; [apply Z.mul_le_mono_nonneg_r | apply Z.mul_lt_mono_pos_r]; lia.
Qed.

Lemma size_le a b : Zpos a <= Zpos b -> Zpos (Pos.size a) <= Zpos (Pos.size b).
Proof.
  intros H. pose proof (size_bounds a). pose proof (size_bounds b).
  destruct (Z_le_gt_dec (Zpos (Pos.size a)) (Zpos (Pos.size b))); [assumption|exfalso].
  assert (2 ^ Zpos (Pos.size b) <= 2 ^ (Zpos (Pos.size a) - 1))
    by (apply Z.pow_le_mono_r; lia).
  lia.
Qed.

Lemma iter_pos_nat {A} (f : A -> A) n :
  forall x, iter_pos f n x = Nat.iter (Pos.to_nat n) f x.
Proof.
  induction n; intros x; cbn [iter_pos].
  - rewrite !IHn, Pos2Nat.inj_xI.
    replace (S (2 * Pos.to_nat n))%nat
      with (Pos.to_nat n + (Pos.to_nat n + 1))%nat by lia.
    rewrite !Nat.iter_add. reflexivity.
  - rewrite !IHn, Pos2Nat.inj_xO.
    replace (2 * Pos.to_nat n)%nat with (Pos.to_nat n + Pos.to_nat n)%nat by lia.
    rewrite Nat.iter_add. reflexivity.
  - reflexivity.
Qed.

Lemma pos_iter_xO p d : Zpos (Pos.iter xO p d) = Zpos p * 2 ^ Zpos d.
Proof.
  rewrite Pos2Nat.inj_iter. rewrite <- (positive_nat_Z d).
  induction (Pos.to_nat d) as [|n IH]; simpl nat_rect.
  - simpl. lia.
  - rewrite Nat2Z.inj_succ, Z.pow_succ_r by lia. rewrite Pos2Z.inj_xO, IH. ring.
Qed.

(** *** Every [long] converts to a finite [double] *)

Lemma shr_1_bounds r : 0 <= shr_m r -> 0 <= shr_m (shr_1 r) <= shr_m r.
Proof.
  destruct r as [m rr s]; simpl. destruct m as [|p|p]; simpl; try lia.
  intros _. destruct p; simpl; lia.
Qed.

Lemma iter_shr_1_bounds n r :
  0 <= shr_m r -> 0 <= shr_m (Nat.iter n shr_1 r) <= shr_m r.
Proof.
  intros H. induction n; simpl; [lia|].
  pose proof (shr_1_bounds (Nat.iter n shr_1 r)). lia.
Qed.

Lemma Zdigits2_bound m k : 0 <= m < 2 ^ k -> 0 <= k -> 0 <= Zdigits2 m <= k.
Proof.
  intros H Hk. destruct m as [|p|p]; simpl; try lia.
  rewrite digits2_size. split; [lia | apply size_upper; lia].
Qed.

Lemma shr_fexp_bounds m e l :
  0 <= m ->
  let '(r, e') := shr_fexp prec emax m e l in
  0 <= shr_m r <= m /\ (e' = e \/ e' = fexp prec emax (Zdigits2 m + e)).
Proof.
  intros Hm. unfold shr_fexp, shr.
  destruct (fexp prec emax (Zdigits2 m + e) - e) eqn:E.
  - destruct l as [|[]]; simpl; lia.
  - rewrite iter_pos_nat.
    assert (shr_m (shr_record_of_loc m l) = m) by (destruct l as [|[]]; reflexivity).
    pose proof (iter_shr_1_bounds (Pos.to_nat p) (shr_record_of_loc m l)). lia.
  - destruct l as [|[]]; simpl; lia.
Qed.

Lemma round_nearest_even_bounds m l :
  0 <= m -> m <= round_nearest_even m l <= m + 1.
Proof.
  intros. unfold round_nearest_even.
  destruct l as [|[]]; try destruct (Z.even m); lia.
Qed.

Lemma binary_round_aux_fin s m e l :
  0 <= m < 2 ^ 64 -> -1074 <= e <= 64 ->
  SFfin (binary_round_aux prec emax s m e l).
Proof.
  intros Hm He. unfold binary_round_aux.
  pose proof (shr_fexp_bounds m e l) as H1.
  destruct (shr_fexp prec emax m e l) as [r e'].
  destruct H1 as [Hr He']; [lia|].
  pose proof (round_nearest_even_bounds (shr_m r) (loc_of_shr_record r)) as Hrd.
  set (m1 := round_nearest_even (shr_m r) (loc_of_shr_record r)) in *.
  pose proof (shr_fexp_bounds m1 e' loc_Exact) as H2.
  destruct (shr_fexp prec emax m1 e' loc_Exact) as [r2 e2].
  destruct H2 as [Hr2 He2]; [lia|].
  assert (P65 : 2 ^ 65 = 2 * 2 ^ 64) by reflexivity.
  assert (Hd1 : 0 <= Zdigits2 m <= 64) by (apply Zdigits2_bound; lia).
  assert (Hd2 : 0 <= Zdigits2 m1 <= 65) by (apply Zdigits2_bound; lia).
  unfold fexp, SpecFloat.emin, prec, emax in *.
  destruct (shr_m r2) as [|p|p]; simpl; try lia.
  destruct (Z.leb_spec e2 971); simpl; try exact I. lia.
Qed.

Lemma binary_normalize_fin z :
  0 <= z < 2 ^ 63 -> SFfin (binary_normalize prec emax z 0 false).
Proof.
  intros Hz. destruct z as [|p|p]; simpl; try exact I; try lia.
  unfold binary_round, shl_align.
  assert (Hd : Zpos (digits2_pos p) <= 63) by (rewrite digits2_size; apply size_upper; lia).
  pose proof (size_bounds p) as Hs. rewrite <- digits2_size in Hs.
  unfold fexp, SpecFloat.emin, prec, emax.
  destruct (Z.max (Zpos (digits2_pos p) + 0 - 53) (3 - 1024 - 53) - 0) eqn:E.
  - apply binary_round_aux_fin; lia.
  - apply binary_round_aux_fin; lia.
  - apply binary_round_aux_fin; [|lia].
    rewrite pos_iter_xO. split; [lia|].
    assert (Zpos p0 = 53 - Zpos (digits2_pos p)) by lia.
    assert (Zpos p * 2 ^ Zpos p0 < 2 ^ Zpos (digits2_pos p) * 2 ^ Zpos p0)
      by (apply Z.mul_lt_mono_pos_r; lia).
    rewrite <- Z.pow_add_r in H0 by lia.
    replace (Zpos (digits2_pos p) + Zpos p0) with 53 in H0 by lia.
    assert (2 ^ 53 < 2 ^ 64) by (apply Z.pow_lt_mono_r; lia). lia.
Qed.

(** *** Below [2^53] the conversions and the subtraction are exact *)

Lemma shr_fexp_canon s m e :
  fexp prec emax (Zpos (digits2_pos m) + e) = e -> e <= 971 ->
  (let '(mrs, e') := shr_fexp prec emax (Zpos m) e loc_Exact in
   match shr_m mrs with
   | 0 => S754_zero s
   | Zpos m' => if e' <=? emax - prec then S754_finite s m' e' else S754_infinity s
   | Zneg _ => S754_nan
   end) = S754_finite s m e.
Proof.
  intros Hf He. unfold shr_fexp. cbn [Zdigits2 shr_record_of_loc].
  rewrite Hf, Z.sub_diag. cbn [shr shr_m].
  unfold emax, prec. change (1024 - 53) with 971.
  destruct (Z.leb_spec e 971); [reflexivity|lia].
Qed.

Lemma binary_round_aux_canon s m e :
  fexp prec emax (Zpos (digits2_pos m) + e) = e -> e <= 971 ->
  binary_round_aux prec emax s (Zpos m) e loc_Exact = S754_finite s m e.
Proof.
  intros Hf He. unfold binary_round_aux. unfold shr_fexp at 1.
  cbn [Zdigits2 shr_record_of_loc].
  rewrite Hf, Z.sub_diag. cbn [shr shr_m loc_of_shr_record round_nearest_even].
  apply shr_fexp_canon; assumption.
Qed.

Lemma iter_shr_1_exact n : forall q r,
  shr_m r = Zpos q * 2 ^ Z.of_nat n -> shr_r r = false -> shr_s r = false ->
  Nat.iter n shr_1 r = Build_shr_record (Zpos q) false false.
Proof.
  induction n; intros q [m rr ss] Hm Hr Hs;
    cbn [shr_m shr_r shr_s] in Hm, Hr, Hs; subst rr ss.
  - simpl. f_equal. lia.
  - rewrite Nat.iter_succ_r.
    rewrite Nat2Z.inj_succ, Z.pow_succ_r in Hm by lia.
    assert (0 < 2 ^ Z.of_nat n) by (apply Z.pow_pos_nonneg; lia).
    destruct m as [|[p|p|]|p]; try lia.
    apply IHn; cbn [shr_1 shr_m shr_r shr_s orb]; try reflexivity. lia.
Qed.

(** Rounding [c * 2^K] held with exponent [-K] gives the normal form of [c]. *)
Lemma binary_round_exact s P K c :
  0 <= K -> Zpos P = Zpos c * 2 ^ K -> Zpos c < 2 ^ 53 ->
  binary_round prec emax s P (- K) = canon s c.
Proof.
  intros HK HP Hc.
  pose proof (size_shift P c K HK HP) as HsP.
  pose proof (size_bounds c) as Hbc.
  assert (Hsc : Zpos (Pos.size c) <= 53) by (apply size_upper; lia).
  set (e0 := Zpos (Pos.size c) - 53).
  assert (Hfe : forall d, d = Zpos (Pos.size c) -> fexp prec emax d = e0).
  { intros d ->. unfold fexp, SpecFloat.emin, prec, emax, e0. lia. }
  assert (HMf : forall M, Zpos M = Zpos c * 2 ^ (53 - Zpos (Pos.size c)) ->
                fexp prec emax (Zpos (digits2_pos M) + e0) = e0).
  { intros M HMv. rewrite digits2_size.
    rewrite (size_shift M c (53 - Zpos (Pos.size c))) by lia.
    unfold fexp, SpecFloat.emin, prec, emax, e0. lia. }
  assert (HMc : forall M, Zpos M = Zpos c * 2 ^ (53 - Zpos (Pos.size c)) ->
                S754_finite s M e0 = canon s c).
  { intros M HMv. unfold canon. rewrite <- HMv. reflexivity. }
  assert (HM : forall M, Zpos M = Zpos c * 2 ^ (53 - Zpos (Pos.size c)) ->
               binary_round_aux prec emax s (Zpos M) e0 loc_Exact = canon s c).
  { intros M HMv. rewrite binary_round_aux_canon; auto. unfold e0. lia. }
  unfold binary_round, shl_align. rewrite digits2_size, HsP.
  rewrite (Hfe (Zpos (Pos.size c) + K + - K)) by lia.
  destruct (e0 - - K) eqn:E.
  - assert (K = 53 - Zpos (Pos.size c)) by (unfold e0 in E; lia).
    replace (- K) with e0 by (unfold e0; lia). apply HM. rewrite HP. congruence.
  - unfold binary_round_aux at 1. unfold shr_fexp at 1.
    cbn [Zdigits2 shr_record_of_loc].
    rewrite digits2_size, HsP. rewrite (Hfe (Zpos (Pos.size c) + K + - K)) by lia.
    rewrite E. cbn [shr]. rewrite iter_pos_nat.
    assert (Hq : exists q, Zpos q = Zpos c * 2 ^ (53 - Zpos (Pos.size c))).
    { exists (Z.to_pos (Zpos c * 2 ^ (53 - Zpos (Pos.size c)))).
      rewrite Z2Pos.id; [reflexivity|].
      assert (0 < 2 ^ (53 - Zpos (Pos.size c))) by (apply Z.pow_pos_nonneg; lia). nia. }
    destruct Hq as [q Hq].
    rewrite (iter_shr_1_exact _ q).
    + cbn [shr_m loc_of_shr_record round_nearest_even].
      replace (- K + Zpos p) with e0 by lia.
      rewrite shr_fexp_canon; auto. unfold e0; lia.
    + cbn [shr_m].
      rewrite positive_nat_Z, HP, Hq, <- Z.mul_assoc, <- Z.pow_add_r
        by (unfold e0 in E; lia).
      f_equal. f_equal. unfold e0 in E. lia.
    + reflexivity.
    + reflexivity.
  - apply HM.
    rewrite pos_iter_xO, HP, <- Z.mul_assoc, <- Z.pow_add_r by lia.
    f_equal. f_equal. unfold e0 in E. lia.
Qed.

Lemma binary_normalize_exact c :
  Zpos c < 2 ^ 53 -> binary_normalize prec emax (Zpos c) 0 false = canon false c.
Proof.
  intros H. cbn [binary_normalize].
  apply (binary_round_exact false c 0 c); [lia | rewrite Z.pow_0_r; lia | exact H].
Qed.

Lemma canon_mantissa s c :
  Zpos c < 2 ^ 53 ->
  exists m, canon s c = S754_finite s m (Zpos (Pos.size c) - 53) /\
            Zpos m = Zpos c * 2 ^ (53 - Zpos (Pos.size c)).
Proof.
  intros H. assert (Zpos (Pos.size c) <= 53) by (apply size_upper; lia).
  exists (Z.to_pos (Zpos c * 2 ^ (53 - Zpos (Pos.size c)))). split; [reflexivity|].
  rewrite Z2Pos.id; [reflexivity|].
  assert (0 < 2 ^ (53 - Zpos (Pos.size c))) by (apply Z.pow_pos_nonneg; lia). nia.
Qed.

Lemma SFtrunc_canon s c : Zpos c < 2 ^ 53 -> SFtrunc (canon s c) = Some (cond_Zopp s (Zpos c)).
Proof.
  intros H. destruct (canon_mantissa s c H) as (m & -> & Hm).
  assert (Zpos (Pos.size c) <= 53) by (apply size_upper; lia).
  cbn [SFtrunc]. rewrite Hm. do 2 f_equal.
  rewrite Z.shiftl_div_pow2 by lia.
  replace (- (Zpos (Pos.size c) - 53)) with (53 - Zpos (Pos.size c)) by lia.
  apply Z.div_mul. apply Z.pow_nonzero; lia.
Qed.

(** Subtracting two such normal forms, the smaller from the larger. *)
Lemma SFsub_canon a b :
  Zpos b < Zpos a -> Zpos a < 2 ^ 53 ->
  SF64sub (canon false a) (canon false b) = canon false (Z.to_pos (Zpos a - Zpos b)).
Proof.
  intros Hba Ha.
  assert (Hb : Zpos b < 2 ^ 53) by lia.
  destruct (canon_mantissa false a Ha) as (ma & -> & Hma).
  destruct (canon_mantissa false b Hb) as (mb & -> & Hmb).
  assert (Hsa : Zpos (Pos.size a) <= 53) by (apply size_upper; lia).
  assert (Hsb : Zpos (Pos.size b) <= 53) by (apply size_upper; lia).
  assert (Hle : Zpos (Pos.size b) <= Zpos (Pos.size a)) by (apply size_le; lia).
  set (ea := Zpos (Pos.size a) - 53) in *. set (eb := Zpos (Pos.size b) - 53) in *.
  unfold SF64sub, SFsub. rewrite (Z.min_r ea eb) by (unfold ea, eb; lia).
  assert (Ha' : Zpos (fst (shl_align ma ea eb)) = Zpos a * 2 ^ (- eb)).
  { unfold shl_align. destruct (eb - ea) eqn:E; cbn [fst].
    - rewrite Hma. do 2 f_equal. unfold ea, eb in *. lia.
    - unfold ea, eb in *. lia.
    - rewrite pos_iter_xO, Hma, <- Z.mul_assoc, <- Z.pow_add_r by (unfold ea, eb in *; lia).
      do 2 f_equal. unfold ea, eb in *. lia. }
  assert (Hb' : Zpos (fst (shl_align mb eb eb)) = Zpos b * 2 ^ (- eb)).
  { unfold shl_align. rewrite Z.sub_diag. cbn [fst]. rewrite Hmb.
    do 2 f_equal. unfold eb. lia. }
  cbn [cond_Zopp]. rewrite Ha', Hb', <- Z.mul_sub_distr_r.
  assert (Hp : 0 < 2 ^ (- eb)) by (apply Z.pow_pos_nonneg; unfold eb; lia).
  destruct ((Zpos a - Zpos b) * 2 ^ (- eb)) as [|P|P] eqn:EP; try nia.
  cbn [binary_normalize]. replace eb with (- - eb) at 1 by lia.
  apply binary_round_exact; [unfold eb; lia | | ].
  - rewrite Z2Pos.id by lia. lia.
  - rewrite Z2Pos.id by lia. lia.
Qed.

Lemma SFsub_self x : SFfin x -> SF64sub x x = S754_zero false.
Proof.
  destruct x as [s|s| |s m e]; simpl; try contradiction; intros _.
  - destruct s; reflexivity.
  - unfold SF64sub, SFsub. rewrite Z.min_id. unfold shl_align.
    rewrite !Z.sub_diag. cbn [fst]. rewrite ?Z.sub_diag. reflexivity.
Qed.

(** *** Signs *)

Lemma binary_round_aux_signed s m e l : SFsigned s (binary_round_aux prec emax s m e l).
Proof.
  unfold binary_round_aux.
  destruct (shr_fexp prec emax m e l) as [r e'].
  destruct (shr_fexp prec emax _ e' loc_Exact) as [r2 e2].
  destruct (shr_m r2); try exact I.
  destruct (e2 <=? emax - prec); cbn [SFsigned]; reflexivity.
Qed.

Lemma binary_normalize_signed z e :
  SFsigned (z <? 0) (binary_normalize prec emax z e false).
Proof.
  destruct z; simpl; try exact I; unfold binary_round;
    match goal with |- context [shl_align ?a ?b ?c] => destruct (shl_align a b c) end;
    apply binary_round_aux_signed.
Qed.

Lemma SFopp_signed s x : SFsigned s x -> SFsigned (negb s) (SFopp x).
Proof. destruct x; simpl; try exact (fun H => H); intros ->; reflexivity. Qed.

Lemma SFsub_signed x y :
  SFsigned true x -> SFsigned false y -> SFsigned true (SF64sub x y).
Proof.
  unfold SF64sub, SFsub.
  destruct x as [sx|sx| |sx mx ex], y as [sy|sy| |sy my ey];
    cbn [SFsigned negb]; intros Hx Hy; subst; try exact I; try reflexivity;
    try (destruct sx; exact I); try (destruct sy; exact I);
    try (destruct sx, sy; exact I); try (destruct sx; reflexivity).
  cbn [cond_Zopp].
  match goal with |- context [binary_normalize _ _ ?z ?e _] =>
    pose proof (binary_normalize_signed z e) as H;
    destruct (Z.ltb_spec z 0) as [_|C]; [exact H | exfalso; lia]
  end.
Qed.

Lemma SFtrunc_signed x z : SFsigned true x -> SFtrunc x = Some z -> z <= 0.
Proof.
  destruct x as [s|s| |s m e]; simpl; intros Hs H; inversion H; subst; try lia.
  simpl. pose proof (proj2 (Z.shiftl_nonneg (Zpos m) e)). lia.
Qed.

(** *** The conversions of the program *)

Lemma Prim2SF_of_nonneg z :
  0 <= z < 2 ^ 63 -> Prim2SF (of_long z) = binary_normalize prec emax z 0 false.
Proof.
  intros Hz. unfold of_long, LONG_MIN.
  destruct (Z.eqb_spec z (- 2 ^ 63)); [lia|].
  destruct (Z.ltb_spec z 0); [lia|].
  rewrite of_uint63_spec, Uint63.of_Z_spec.
  rewrite Z.mod_small; [reflexivity|]. exact Hz.
Qed.

Lemma of_long_signed_nonneg z : 0 <= z -> SFsigned false (Prim2SF (of_long z)).
Proof.
  intros Hz. unfold of_long, LONG_MIN.
  destruct (Z.eqb_spec z (- 2 ^ 63)); [lia|].
  destruct (Z.ltb_spec z 0); [lia|].
  rewrite of_uint63_spec.
  pose proof (Uint63.to_Z_bounded (Uint63.of_Z z)) as B.
  pose proof (binary_normalize_signed (Uint63.to_Z (Uint63.of_Z z)) 0) as Sg.
  destruct (Z.ltb_spec (Uint63.to_Z (Uint63.of_Z z)) 0); [lia | exact Sg].
Qed.

Lemma of_long_signed_nonpos z : z <= 0 -> SFsigned true (Prim2SF (of_long z)).
Proof.
  intros Hz. unfold of_long.
  destruct (Z.eqb_spec z LONG_MIN); [vm_compute; reflexivity|].
  destruct (Z.ltb_spec z 0).
  - rewrite FloatAxioms.opp_spec, of_uint63_spec. apply (SFopp_signed false).
    pose proof (Uint63.to_Z_bounded (Uint63.of_Z (- z))) as B.
    pose proof (binary_normalize_signed (Uint63.to_Z (Uint63.of_Z (- z))) 0) as Sg.
    destruct (Z.ltb_spec (Uint63.to_Z (Uint63.of_Z (- z))) 0); [lia | exact Sg].
  - assert (z = 0) by lia. subst. vm_compute. exact I.
Qed.

(** A volume decremented by itself, through [double], is left at zero. *)
Lemma sub_self_to_long v :
  0 <= v <= LONG_MAX -> to_long (of_long v - of_long v) = Some 0.
Proof.
  intros Hv. unfold to_long.
  rewrite FloatAxioms.sub_spec, SFsub_self; [reflexivity|].
  rewrite Prim2SF_of_nonneg by (unfold LONG_MAX in Hv; lia).
  apply binary_normalize_fin. unfold LONG_MAX in Hv; lia.
Qed.

(** Below [2^53] the decrement through [double] is the integer subtraction. *)
Lemma sub_exact_to_long v q :
  0 <= q <= v -> v < 2 ^ 53 -> to_long (of_long v - of_long q) = Some (v - q).
Proof.
  intros Hq Hv.
  assert (P : 2 ^ 53 < 2 ^ 63) by (apply Z.pow_lt_mono_r; lia).
  destruct (Z.eq_dec q v) as [->|Hne].
  { rewrite Z.sub_diag. apply sub_self_to_long. unfold LONG_MAX. lia. }
  unfold to_long. rewrite FloatAxioms.sub_spec, !Prim2SF_of_nonneg by lia.
  destruct v as [|a|a]; try lia.
  rewrite (binary_normalize_exact a) by lia.
  destruct q as [|b|b]; try lia.
  - cbn [binary_normalize]. destruct (canon_mantissa false a Hv) as (m & E & _).
    rewrite E. cbn [SF64sub SFsub]. rewrite <- E, SFtrunc_canon by lia.
    cbn [cond_Zopp]. rewrite Z.sub_0_r. unfold LONG_MIN, LONG_MAX.
    destruct (Z.leb_spec (- 2 ^ 63) (Zpos a)); [|lia].
    destruct (Z.leb_spec (Zpos a) (2 ^ 63 - 1)); [reflexivity|lia].
  - rewrite (binary_normalize_exact b) by lia.
    rewrite SFsub_canon by lia. rewrite SFtrunc_canon by (rewrite Z2Pos.id; lia).
    cbn [cond_Zopp]. rewrite Z2Pos.id by lia. unfold LONG_MIN, LONG_MAX.
    destruct (Z.leb_spec (- 2 ^ 63) (Zpos a - Zpos b)); [|lia].
    destruct (Z.leb_spec (Zpos a - Zpos b) (2 ^ 63 - 1)); [reflexivity|lia].
Qed.

(** An exhausted (non-positive) volume stays exhausted after a decrement by
    a non-negative quantity. *)
Lemma sub_nonpos_to_long w q z :
  w <= 0 -> 0 <= q -> to_long (of_long w - of_long q) = Some z -> z <= 0.
Proof.
  intros Hw Hq. unfold to_long. rewrite FloatAxioms.sub_spec.
  pose proof (SFsub_signed _ _ (of_long_signed_nonpos w Hw) (of_long_signed_nonneg q Hq)) as S.
  destruct (SFtrunc _) as [t|] eqn:T; [|discriminate].
  pose proof (SFtrunc_signed _ _ S T) as Ht.
  destruct ((LONG_MIN <=? t) && (t <=? LONG_MAX)); intros H; inversion H; subst; assumption.
Qed.

Lemma to_long_range x z : to_long x = Some z -> LONG_MIN <= z <= LONG_MAX.
Proof.
  unfold to_long. destruct (SFtrunc (Prim2SF x)) as [t|]; [|discriminate].
  destruct (Z.leb_spec LONG_MIN t), (Z.leb_spec t LONG_MAX); simpl;
    intros E; inversion E; subst; lia.
Qed.

(** *** Values that are not negative *)

Lemma shr_1_div2 r : 0 <= shr_m r -> shr_m (shr_1 r) = shr_m r / 2.
Proof.
  destruct r as [m rb sb]. cbn [shr_m]. intros H.
  destruct m as [|[p|p|]|p]; cbn [shr_1 shr_m]; rewrite <- Z.div2_div; try reflexivity; lia.
Qed.

Lemma iter_shr_1_div n : forall r,
  0 <= shr_m r -> shr_m (Nat.iter n shr_1 r) = shr_m r / 2 ^ Z.of_nat n.
Proof.
  induction n as [|n IH]; intros r Hr.
  - change (Nat.iter 0 shr_1 r) with r. change (2 ^ Z.of_nat 0) with 1.
    rewrite Z.div_1_r. reflexivity.
  - change (Nat.iter (S n) shr_1 r) with (shr_1 (Nat.iter n shr_1 r)).
    rewrite shr_1_div2 by (apply iter_shr_1_bounds; exact Hr).
    rewrite IH by exact Hr. rewrite Nat2Z.inj_succ, Z.pow_succ_r by lia.
    rewrite Z.div_div by lia. f_equal. lia.
Qed.

Lemma shr_fexp_pos m e l :
  1 <= m -> -1074 < Zdigits2 m + e ->
  let '(r, e') := shr_fexp prec emax m e l in
  1 <= shr_m r /\ ((shr_m r = m /\ e' = e) \/ -1074 <= e').
Proof.
  intros Hm Hd. unfold shr_fexp, shr.
  assert (Sm : shr_m (shr_record_of_loc m l) = m) by (destruct l as [|[| |]]; reflexivity).
  destruct (fexp prec emax (Zdigits2 m + e) - e) as [|p|p] eqn:E;
    try (rewrite Sm; split; [lia | left; split; reflexivity]).
  rewrite iter_pos_nat, iter_shr_1_div by (rewrite Sm; lia).
  rewrite Sm, positive_nat_Z.
  destruct m as [|q|q]; try lia.
  cbn [Zdigits2] in E, Hd. rewrite digits2_size in E, Hd.
  pose proof (size_bounds q) as Hs.
  unfold fexp, SpecFloat.emin, prec, emax in E.
  assert (Hp : Zpos p <= Zpos (Pos.size q) - 1) by lia.
  assert (2 ^ Zpos p <= 2 ^ (Zpos (Pos.size q) - 1)) by (apply Z.pow_le_mono_r; lia).
  split; [apply Z.div_le_lower_bound; lia | right; lia].
Qed.

Lemma Zdigits2_mono a b : 1 <= a <= b -> Zdigits2 a <= Zdigits2 b.
Proof.
  intros H. destruct a as [|a|a], b as [|b|b]; try lia.
  cbn [Zdigits2]. rewrite !digits2_size. apply size_le. lia.
Qed.

(** A positive mantissa whose value is not below the least positive
    binary64 never rounds to zero. *)
Lemma binary_round_aux_pos s m e l :
  1 <= m -> -1074 < Zdigits2 m + e ->
  match binary_round_aux prec emax s m e l with
  | S754_finite s' _ _ | S754_infinity s' => s' = s
  | _ => False
  end.
Proof.
  intros Hm Hd. unfold binary_round_aux.
  pose proof (shr_fexp_pos m e l Hm Hd) as H1.
  destruct (shr_fexp prec emax m e l) as [r e'].
  destruct H1 as [Hr He'].
  pose proof (round_nearest_even_bounds (shr_m r) (loc_of_shr_record r)) as Hrd.
  set (m1 := round_nearest_even (shr_m r) (loc_of_shr_record r)) in *.
  assert (D1 : 1 <= Zdigits2 m1).
  { destruct m1 as [|q|q]; try lia. cbn [Zdigits2].
    pose proof (Pos2Z.is_pos (digits2_pos q)). lia. }
  assert (Hd1 : -1074 < Zdigits2 m1 + e').
  { destruct He' as [[Em Ee]|Ee]; [|lia].
    pose proof (Zdigits2_mono m m1). lia. }
  pose proof (shr_fexp_pos m1 e' loc_Exact ltac:(lia) Hd1) as H2.
  destruct (shr_fexp prec emax m1 e' loc_Exact) as [r2 e2].
  destruct H2 as [Hr2 He2].
  destruct (shr_m r2) as [|p|p]; try lia.
  destruct (e2 <=? emax - prec); reflexivity.
Qed.

(** A non-negative mantissa rounds to a value that is not negative. *)
Lemma binary_round_aux_nonneg m e l :
  0 <= m -> SFnonneg (binary_round_aux prec emax false m e l).
Proof.
  intros Hm. unfold binary_round_aux.
  pose proof (shr_fexp_bounds m e l) as H1.
  destruct (shr_fexp prec emax m e l) as [r e'].
  destruct H1 as [Hr He']; [lia|].
  pose proof (round_nearest_even_bounds (shr_m r) (loc_of_shr_record r)) as Hrd.
  set (m1 := round_nearest_even (shr_m r) (loc_of_shr_record r)) in *.
  pose proof (shr_fexp_bounds m1 e' loc_Exact) as H2.
  destruct (shr_fexp prec emax m1 e' loc_Exact) as [r2 e2].
  destruct H2 as [Hr2 He2]; [lia|].
  destruct (shr_m r2) as [|p|p]; cbn [SFnonneg]; try exact I; try lia.
  destruct (e2 <=? emax - prec); exact I.
Qed.

Lemma binary_round_nonneg m e : SFnonneg (binary_round prec emax false m e).
Proof.
  unfold binary_round.
  destruct (shl_align m e (fexp prec emax (Zpos (digits2_pos m) + e))) as [mz ez].
  apply binary_round_aux_nonneg. lia.
Qed.

Lemma SFadd_nonneg x y : SFnonneg x -> SFnonneg y -> SFnonneg (SF64add x y).
Proof.
  unfold SF64add, SFadd.
  destruct x as [sx|[|]| |[|] mx ex], y as [sy|[|]| |[|] my ey];
    cbn [SFnonneg]; intros Hx Hy; try contradiction; try exact I.
  - destruct sx, sy; exact I.
  - cbn [cond_Zopp]. cbn [Z.add binary_normalize]. apply binary_round_nonneg.
Qed.

Lemma SFmul_nonneg x y :
  SFnonneg x -> SFnonneg y ->
  (forall s, x = S754_zero s -> y <> S754_infinity false) ->
  (forall s, y = S754_zero s -> x <> S754_infinity false) ->
  SFnonneg (SF64mul x y).
Proof.
  unfold SF64mul, SFmul.
  destruct x as [sx|[|]| |[|] mx ex], y as [sy|[|]| |[|] my ey];
    cbn [SFnonneg xorb]; intros Hx Hy Zx Zy; try contradiction; try exact I;
    try (destruct (Zx _ eq_refl eq_refl)); try (destruct (Zy _ eq_refl eq_refl)).
  apply binary_round_aux_nonneg. lia.
Qed.

Lemma leb_zero_nonneg x : SFnonneg (Prim2SF x) -> (0 <=? x)%float = true.
Proof.
  intros H. rewrite FloatAxioms.leb_spec.
  change (Prim2SF 0) with (S754_zero false).
  destruct (Prim2SF x) as [s|[|]| |[|] m e]; cbn [SFnonneg] in H; try contradiction;
    reflexivity.
Qed.

(** A value above zero is a positive finite one or [+infinity]. *)
Lemma pos_cases x :
  (0 <? x)%float = true ->
  (exists m e, Prim2SF x = S754_finite false m e) \/ Prim2SF x = S754_infinity false.
Proof.
  intros H. rewrite FloatAxioms.ltb_spec in H.
  change (Prim2SF 0) with (S754_zero false) in H.
  destruct (Prim2SF x) as [s|[|]| |[|] m e]; try discriminate.
  - right. reflexivity.
  - left. eauto.
Qed.

(** [long] values from 1 up convert to a positive finite [double]. *)
Lemma of_long_pos q :
  1 <= q <= LONG_MAX -> exists m e, Prim2SF (of_long q) = S754_finite false m e.
Proof.
  intros Hq. unfold LONG_MAX in Hq.
  rewrite Prim2SF_of_nonneg by lia.
  pose proof (binary_normalize_fin q ltac:(lia)) as Fin.
  destruct q as [|p|p]; try lia.
  cbn [binary_normalize] in *. unfold binary_round in *.
  assert (P : match shl_align p 0 (fexp prec emax (Zpos (digits2_pos p) + 0)) with
              | (mz, ez) => -1074 < Zdigits2 (Zpos mz) + ez
              end).
  { unfold shl_align. rewrite digits2_size.
    pose proof (Pos2Z.is_pos (Pos.size p)) as Sp.
    unfold fexp, SpecFloat.emin, prec, emax.
    destruct (Z.max (Zpos (Pos.size p) + 0 - 53) (3 - 1024 - 53) - 0) as [|d|d] eqn:E;
      cbn [Zdigits2]; rewrite ?digits2_size; lia. }
  destruct (shl_align p 0 (fexp prec emax (Zpos (digits2_pos p) + 0))) as [mz ez].
  pose proof (binary_round_aux_pos false (Zpos mz) ez loc_Exact ltac:(lia) P) as R.
  destruct (binary_round_aux prec emax false (Zpos mz) ez loc_Exact) as [s|s| |s m e];
    cbn [SFfin] in Fin; try contradiction.
  subst s. eauto.
Qed.

(** Two values above zero that compare equal are the same [double]. *)
Lemma pos_eq x y :
  (0 <? x)%float = true -> (0 <? y)%float = true ->
  (x <? y)%float = false -> (y <? x)%float = false -> x = y.
Proof.
  intros Hx Hy L1 L2.
  pose proof (ltb_not_nan_r _ _ Hx) as Nx. pose proof (ltb_not_nan_r _ _ Hy) as Ny.
  assert (K : key x = key y).
  { destruct (klt_total (key x) (key y)) as [C|[C|C]]; [|exact C|].
    - assert (T : (x <? y)%float = true) by (apply ltb_iff; auto). congruence.
    - assert (T : (y <? x)%float = true) by (apply ltb_iff; auto). congruence. }
  apply Prim2SF_inj. unfold key in K.
  destruct (pos_cases _ Hx) as [(mx & ex & Ex)|Ex], (pos_cases _ Hy) as [(my & ey & Ey)|Ey];
    rewrite Ex, Ey in *; cbn [SFkey] in K; try discriminate; try reflexivity.
  inversion K. reflexivity.
Qed.

(** *** Values below [2^63] in magnitude *)

Lemma shr_1_round r : 0 <= shr_m r -> shr_r (shr_1 r) = Z.odd (shr_m r).
Proof.
  destruct r as [m rb sb]. cbn [shr_m]. intros H.
  destruct m as [|[p|p|]|p]; cbn [shr_1 shr_r]; try reflexivity; lia.
Qed.

Lemma iter_shr_1_round n r :
  0 <= shr_m r -> shr_r (Nat.iter (S n) shr_1 r) = Z.odd (shr_m r / 2 ^ Z.of_nat n).
Proof.
  intros H. change (Nat.iter (S n) shr_1 r) with (shr_1 (Nat.iter n shr_1 r)).
  rewrite shr_1_round by (apply iter_shr_1_bounds; exact H).
  rewrite iter_shr_1_div by exact H. reflexivity.
Qed.

Lemma round_down r :
  shr_r r = false -> round_nearest_even (shr_m r) (loc_of_shr_record r) = shr_m r.
Proof. destruct r as [m [|] [|]]; cbn; intros H; try discriminate H; reflexivity. Qed.

Lemma Zdigits2_spec M :
  0 <= M -> M < 2 ^ Zdigits2 M /\ 0 <= Zdigits2 M /\ (0 < M -> 2 ^ (Zdigits2 M - 1) <= M).
Proof.
  intros H. destruct M as [|q|q]; try lia.
  - cbn. repeat split; lia.
  - cbn [Zdigits2]. rewrite digits2_size. pose proof (size_bounds q).
    pose proof (Pos2Z.is_pos (Pos.size q)). repeat split; lia.
Qed.

Lemma pow2_split a : 0 < a -> 2 ^ a = 2 * 2 ^ (a - 1).
Proof. intros H. rewrite <- Z.pow_succ_r by lia. f_equal. lia. Qed.

(** An exact mantissa whose value is below [2^63 - 512] rounds to a value
    of exponent at most 10: it stays under [2^63]. *)
Lemma binary_round_aux_small s M e :
  0 <= M -> e <= 10 -> 2 * M < (2 ^ 54 - 1) * 2 ^ (10 - e) ->
  SFsmall (binary_round_aux prec emax s M e loc_Exact).
Proof.
  intros HM He Hb.
  pose proof (Zdigits2_spec M HM) as (Dlt & D0 & Dge).
  set (d := Zdigits2 M) in *.
  assert (P0 : 0 < 2 ^ (10 - e)) by (apply Z.pow_pos_nonneg; lia).
  assert (Hd : d + e <= 63).
  { destruct (Z.eq_dec M 0) as [->|Hn]; [subst d; cbn; lia|].
    assert (L : 2 ^ (d - 1) <= M) by (apply Dge; lia).
    assert (U : M < 2 ^ (63 - e)).
    { replace (63 - e) with (53 + (10 - e)) by lia. rewrite Z.pow_add_r by lia. nia. }
    assert (2 ^ (d - 1) < 2 ^ (63 - e)) by lia.
    apply Z.pow_lt_mono_r_iff in H; lia. }
  unfold binary_round_aux.
  destruct (shr_fexp prec emax M e loc_Exact) as [r1 e1] eqn:E1.
  unfold shr_fexp, shr in E1. cbn [shr_record_of_loc] in E1. fold d in E1.
  destruct (fexp prec emax (d + e) - e) as [|p|p] eqn:En.
  - (* no shift *)
    inversion E1; subst r1 e1. cbn [shr_m loc_of_shr_record round_nearest_even].
    unfold shr_fexp, shr. cbn [shr_record_of_loc]. fold d. rewrite En. cbn [shr_m].
    assert (M < 2 ^ 53).
    { unfold fexp, SpecFloat.emin, prec, emax in En.
      assert (d <= 53) by lia.
      assert (2 ^ d <= 2 ^ 53) by (apply Z.pow_le_mono_r; lia). lia. }
    destruct M as [|m|m]; cbn [SFsmall]; try exact I; try lia.
    unfold emax, prec. destruct (Z.leb_spec e (1024 - 53)); cbn [SFsmall]; lia.
  - (* a shift by p *)
    inversion E1; subst r1 e1. clear E1.
    set (r1 := iter_pos shr_1 p {| shr_m := M; shr_r := false; shr_s := false |}).
    assert (Hm' : shr_m r1 = M / 2 ^ Zpos p).
    { unfold r1. rewrite iter_pos_nat, iter_shr_1_div by (cbn; lia).
      rewrite positive_nat_Z. reflexivity. }
    assert (Pp : 0 < 2 ^ Zpos p) by (apply Z.pow_pos_nonneg; lia).
    unfold fexp, SpecFloat.emin, prec, emax in En.
    assert (He1 : -1074 <= e + Zpos p <= 10) by lia.
    assert (Hm53 : 0 <= shr_m r1 < 2 ^ 53).
    { rewrite Hm'. split; [apply Z.div_pos; lia|].
      apply Z.div_lt_upper_bound; [lia|].
      assert (2 ^ d <= 2 ^ (Zpos p + 53)) by (apply Z.pow_le_mono_r; lia).
      rewrite Z.pow_add_r in H by lia. lia. }
    pose proof (round_nearest_even_bounds (shr_m r1) (loc_of_shr_record r1)
                                          ltac:(lia)) as Hrd.
    assert (Hedge : e + Zpos p = 10 ->
                    round_nearest_even (shr_m r1) (loc_of_shr_record r1) < 2 ^ 53).
    { intros E10.
      destruct (Z.eq_dec (shr_m r1) (2 ^ 53 - 1)) as [Em|Nm]; [|lia].
      rewrite round_down; [lia|].
      unfold r1. rewrite iter_pos_nat.
      destruct (Pos.to_nat p) as [|k] eqn:Ek; [pose proof (Pos2Nat.is_pos p); lia|].
      rewrite iter_shr_1_round by (cbn; lia). cbn [shr_m].
      assert (Zk : Z.of_nat k = Zpos p - 1) by lia.
      rewrite Zk.
      replace (10 - e) with (Zpos p) in Hb by lia.
      pose proof (Z.div_mod M (2 ^ Zpos p) ltac:(lia)) as DM.
      pose proof (Z.mod_pos_bound M (2 ^ Zpos p) ltac:(lia)) as RM.
      rewrite <- Hm', Em in DM.
      pose proof (pow2_split (Zpos p) ltac:(lia)) as Sp.
      assert (Q : M / 2 ^ (Zpos p - 1) = 2 * (2 ^ 53 - 1)).
      { symmetry. apply (Z.div_unique _ _ _ (M mod 2 ^ Zpos p)); [left; nia | nia]. }
      rewrite Q. rewrite Z.odd_mul. reflexivity. }
    set (m1 := round_nearest_even (shr_m r1) (loc_of_shr_record r1)) in *.
    destruct (Z_lt_le_dec m1 (2 ^ 53)) as [Lt|Ge].
    + (* no carry *)
      unfold shr_fexp, shr. cbn [shr_record_of_loc].
      assert (Hdg : 0 <= Zdigits2 m1 <= 53) by (apply Zdigits2_bound; lia).
      unfold fexp, SpecFloat.emin, prec, emax.
      destruct (Z.max (Zdigits2 m1 + (e + Zpos p) - 53) (3 - 1024 - 53) - (e + Zpos p))
        as [|p2|p2] eqn:E2; try lia; cbn [shr_m].
      * destruct m1 as [|q|q]; cbn [SFsmall]; try exact I; try lia.
        destruct (Z.leb_spec (e + Zpos p) (1024 - 53)); cbn [SFsmall]; lia.
      * destruct m1 as [|q|q]; cbn [SFsmall]; try exact I; try lia.
        destruct (Z.leb_spec (e + Zpos p) (1024 - 53)); cbn [SFsmall]; lia.
    + (* carry to 2^53 *)
      assert (Em1 : m1 = 2 ^ 53) by lia.
      assert (E9 : e + Zpos p <= 9).
      { destruct (Z.eq_dec (e + Zpos p) 10) as [E10|]; [|lia]. specialize (Hedge E10). lia. }
      rewrite Em1. unfold shr_fexp, shr. cbn [shr_record_of_loc].
      change (Zdigits2 (2 ^ 53)) with 54.
      unfold fexp, SpecFloat.emin, prec, emax.
      replace (Z.max (54 + (e + Zpos p) - 53) (3 - 1024 - 53) - (e + Zpos p)) with 1 by lia.
      change (shr_m (iter_pos shr_1 1 {| shr_m := 2 ^ 53; shr_r := false; shr_s := false |}))
        with (2 ^ 52).
      change (2 ^ 52) with (Zpos (Z.to_pos (2 ^ 52))). cbv iota.
      destruct (Z.leb_spec (e + Zpos p + 1) (1024 - 53)); cbn [SFsmall]; [|lia].
      split; [reflexivity | lia].
  - (* no shift *)
    inversion E1; subst r1 e1. cbn [shr_m loc_of_shr_record round_nearest_even].
    unfold shr_fexp, shr. cbn [shr_record_of_loc]. fold d. rewrite En. cbn [shr_m].
    assert (M < 2 ^ 53).
    { unfold fexp, SpecFloat.emin, prec, emax in En.
      assert (d <= 53) by lia.
      assert (2 ^ d <= 2 ^ 53) by (apply Z.pow_le_mono_r; lia). lia. }
    destruct M as [|m|m]; cbn [SFsmall]; try exact I; try lia.
    unfold emax, prec. destruct (Z.leb_spec e (1024 - 53)); cbn [SFsmall]; lia.
Qed.

Lemma binary_round_small s m e :
  e <= 10 -> 2 * Zpos m < (2 ^ 54 - 1) * 2 ^ (10 - e) ->
  SFsmall (binary_round prec emax s m e).
Proof.
  intros He Hb. unfold binary_round, shl_align.
  destruct (fexp prec emax (Zpos (digits2_pos m) + e) - e) as [|p|p] eqn:E.
  - apply binary_round_aux_small; [lia | exact He | exact Hb].
  - apply binary_round_aux_small; [lia | exact He | exact Hb].
  - assert (E' : fexp prec emax (Zpos (digits2_pos m) + e) = e - Zpos p) by lia.
    rewrite E'. apply binary_round_aux_small; [lia | lia |].
    rewrite pos_iter_xO.
    replace (10 - (e - Zpos p)) with ((10 - e) + Zpos p) by lia.
    rewrite Z.pow_add_r by lia.
    assert (0 < 2 ^ Zpos p) by (apply Z.pow_pos_nonneg; lia). nia.
Qed.

Lemma binary_normalize_small M e :
  e <= 10 -> 2 * Z.abs M < (2 ^ 54 - 1) * 2 ^ (10 - e) ->
  SFsmall (binary_normalize prec emax M e false).
Proof.
  intros He Hb. destruct M as [|m|m]; cbn [binary_normalize].
  - exact I.
  - apply binary_round_small; [exact He | exact Hb].
  - apply binary_round_small; [exact He | exact Hb].
Qed.

(** A [long] from 0 to [SAFE_MAX] converts to a [double] below [2^63]. *)
Lemma of_long_small v : 0 <= v <= SAFE_MAX -> SFsmall (Prim2SF (of_long v)).
Proof.
  intros Hv. unfold SAFE_MAX in Hv. rewrite Prim2SF_of_nonneg by lia.
  apply binary_normalize_small; [lia|].
  change ((2 ^ 54 - 1) * 2 ^ (10 - 0)) with (2 * (2 ^ 63 - 512)). lia.
Qed.

Lemma shl_align_fst m e ez :
  ez <= e -> Zpos (fst (shl_align m e ez)) = Zpos m * 2 ^ (e - ez).
Proof.
  intros H. unfold shl_align. destruct (ez - e) as [|p|p] eqn:E; cbn [fst]; try lia.
  - replace (e - ez) with 0 by lia. lia.
  - rewrite pos_iter_xO. do 2 f_equal. lia.
Qed.

(** The difference of two positive values below [2^63] is below [2^63] in
    magnitude. *)
Lemma SFsub_small mx ex my ey :
  SFsmall (S754_finite false mx ex) -> SFsmall (S754_finite false my ey) ->
  SFsmall (SF64sub (S754_finite false mx ex) (S754_finite false my ey)).
Proof.
  cbn [SFsmall]. intros [Hx Ex] [Hy Ey]. unfold SF64sub, SFsub. cbn [cond_Zopp].
  set (ez := Z.min ex ey).
  rewrite (shl_align_fst mx ex ez), (shl_align_fst my ey ez) by (unfold ez; lia).
  assert (Bx : Zpos mx * 2 ^ (ex - ez) <= (2 ^ 53 - 1) * 2 ^ (10 - ez)).
  { replace (10 - ez) with ((10 - ex) + (ex - ez)) by lia.
    rewrite Z.pow_add_r by (unfold ez; lia).
    assert (0 < 2 ^ (ex - ez)) by (apply Z.pow_pos_nonneg; unfold ez; lia).
    assert (1 <= 2 ^ (10 - ex)) by (apply (Z.pow_le_mono_r 2 0); lia). nia. }
  assert (By : Zpos my * 2 ^ (ey - ez) <= (2 ^ 53 - 1) * 2 ^ (10 - ez)).
  { replace (10 - ez) with ((10 - ey) + (ey - ez)) by lia.
    rewrite Z.pow_add_r by (unfold ez; lia).
    assert (0 < 2 ^ (ey - ez)) by (apply Z.pow_pos_nonneg; unfold ez; lia).
    assert (1 <= 2 ^ (10 - ey)) by (apply (Z.pow_le_mono_r 2 0); lia). nia. }
  assert (0 < Zpos mx * 2 ^ (ex - ez))
    by (apply Z.mul_pos_pos; [lia | apply Z.pow_pos_nonneg; unfold ez; lia]).
  assert (0 < Zpos my * 2 ^ (ey - ez))
    by (apply Z.mul_pos_pos; [lia | apply Z.pow_pos_nonneg; unfold ez; lia]).
  assert (0 < 2 ^ (10 - ez)) by (apply Z.pow_pos_nonneg; unfold ez; lia).
  apply binary_normalize_small; [unfold ez; lia | lia].
Qed.

(** A value below [2^63] in magnitude converts to a [long]. *)
Lemma small_to_long x :
  SFsmall (Prim2SF x) ->
  exists r, to_long x = Some r /\ - (2 ^ 63 - 1024) <= r <= 2 ^ 63 - 1024.
Proof.
  unfold to_long. destruct (Prim2SF x) as [s|s| |s m e]; cbn [SFsmall SFtrunc];
    try contradiction.
  - intros _. exists 0. split; [reflexivity | lia].
  - intros [Hm He].
    assert (B : 0 <= Z.shiftl (Zpos m) e <= 2 ^ 63 - 1024).
    { destruct (Z_lt_le_dec e 0) as [Neg|Pos].
      - rewrite <- (Z.opp_involutive e). rewrite Z.shiftl_opp_r.
        rewrite Z.shiftr_div_pow2 by lia.
        assert (0 < 2 ^ (- e)) by (apply Z.pow_pos_nonneg; lia).
        split; [apply Z.div_pos; lia|].
        assert (Zpos m / 2 ^ (- e) <= Zpos m) by (apply Z.div_le_upper_bound; nia). lia.
      - rewrite Z.shiftl_mul_pow2 by lia.
        assert (0 < 2 ^ e) by (apply Z.pow_pos_nonneg; lia).
        assert (2 ^ e <= 2 ^ 10) by (apply Z.pow_le_mono_r; lia).
        change (2 ^ 63 - 1024) with ((2 ^ 53 - 1) * 2 ^ 10). nia. }
    exists (cond_Zopp s (Z.shiftl (Zpos m) e)).
    assert (R : - (2 ^ 63 - 1024) <= cond_Zopp s (Z.shiftl (Zpos m) e) <= 2 ^ 63 - 1024)
      by (destruct s; cbn [cond_Zopp]; lia).
    split; [|exact R].
    unfold LONG_MIN, LONG_MAX.
    destruct (Z.leb_spec (- 2 ^ 63) (cond_Zopp s (Z.shiftl (Zpos m) e))); [|lia].
    destruct (Z.leb_spec (cond_Zopp s (Z.shiftl (Zpos m) e)) (2 ^ 63 - 1)); [|lia].
    reflexivity.
Qed.

(** The decrement of [update_volume] has a defined result whenever volume
    and quantity are from 1 to [SAFE_MAX], and the result is a [long] of at
    most [SAFE_MAX] again. *)
Lemma sub_defined v q :
  1 <= v <= SAFE_MAX -> 1 <= q <= SAFE_MAX ->
  exists r, to_long (of_long v - of_long q) = Some r /\ LONG_MIN <= r <= SAFE_MAX.
Proof.
  intros Hv Hq.
  assert (S : SFsmall (Prim2SF (of_long v - of_long q))).
  { rewrite FloatAxioms.sub_spec.
    pose proof (of_long_small v ltac:(lia)) as Sv.
    pose proof (of_long_small q ltac:(lia)) as Sq.
    unfold SAFE_MAX, LONG_MAX in *.
    destruct (of_long_pos v ltac:(unfold LONG_MAX; lia)) as (mv & ev & Ev).
    destruct (of_long_pos q ltac:(unfold LONG_MAX; lia)) as (mq & eq & Eq).
    rewrite Ev, Eq in *. apply SFsub_small; assumption. }
  destruct (small_to_long _ S) as (r & T & R). exists r. split; [exact T|].
  unfold LONG_MIN, SAFE_MAX. lia.
Qed.

End F64Facts.

Import F64Facts.

(* ================================================================= *)
(** ** The scan selects the first pair of greatest profit *)
(* ================================================================= *)

Lemma consider_adopt ask bid st :
  (volume ask <=? 0) = false -> consider ask bid st = adopt st (ask, bid).
Proof.
  intros Ha. unfold consider, adopt, valid, trade_of, profit. cbn [fst snd].
  apply Z.leb_gt in Ha. rewrite (proj2 (Z.ltb_lt 0 (volume ask)) Ha).
  destruct (Z.leb_spec (volume bid) 0) as [Hb|Hb].
  - rewrite (proj2 (Z.ltb_ge 0 (volume bid)) Hb). reflexivity.
  - rewrite (proj2 (Z.ltb_lt 0 (volume bid)) Hb).
    destruct (exchange ask =? exchange bid)%string; reflexivity.
Qed.

Lemma adopt_exhausted_ask ask bid st :
  (volume ask <=? 0) = true -> adopt st (ask, bid) = st.
Proof.
  intros Ha. unfold adopt, valid. cbn [fst snd].
  apply Z.leb_le in Ha. rewrite (proj2 (Z.ltb_ge 0 (volume ask)) Ha). reflexivity.
Qed.

Lemma scan_bids_flat ask bids : forall st,
  (volume ask <=? 0) = false ->
  scan_bids ask bids st = fold_left adopt (map (fun kb : string * Entry => (ask, snd kb)) bids) st.
Proof.
  unfold scan_bids. induction bids as [|kb bids IH]; intros st Ha; [reflexivity|].
  cbn [fold_left map]. rewrite consider_adopt by exact Ha. apply IH. exact Ha.
Qed.

Lemma skip_bids_flat ask bids : forall st,
  (volume ask <=? 0) = true ->
  fold_left adopt (map (fun kb : string * Entry => (ask, snd kb)) bids) st = st.
Proof.
  induction bids as [|kb bids IH]; intros st Ha; [reflexivity|].
  cbn [fold_left map]. rewrite adopt_exhausted_ask by exact Ha. apply IH. exact Ha.
Qed.

(** The nested loops are one left fold over [pairs]. *)
Lemma scan_asks_flat asks bids : forall st,
  scan_asks asks bids st = fold_left adopt (pairs asks bids) st.
Proof.
  unfold scan_asks, pairs. induction asks as [|ka asks IH]; intros st; [reflexivity|].
  cbn [fold_left flat_map]. rewrite fold_left_app.
  destruct (volume (snd ka) <=? 0) eqn:Ha.
  - rewrite skip_bids_flat by exact Ha. apply IH.
  - rewrite <- scan_bids_flat by exact Ha. apply IH.
Qed.

Lemma fold_adopt_spec l : forall st,
  (fold_left adopt l st = st /\
   forall x y, In (x, y) l -> valid x y = true -> (snd st <? profit x y)%float = false)
  \/
  (exists ask bid,
     fold_left adopt l st = (Some (trade_of ask bid), profit ask bid) /\
     selected l (snd st) ask bid).
Proof.
  induction l as [|[x y] l IH]; intros st.
  - left. split; [reflexivity | intros ? ? []].
  - cbn [fold_left].
    destruct (valid x y) eqn:V; [destruct (snd st <? profit x y)%float eqn:L|].
    + (* adopted *)
      assert (A : adopt st (x, y) = (Some (trade_of x y), profit x y))
        by (unfold adopt; cbn [fst snd]; rewrite V, L; reflexivity).
      rewrite A. right.
      destruct (IH (Some (trade_of x y), profit x y)) as [[E R]|(a & b & E & S)].
      * exists x, y. split; [exact E|]. exists [], l. cbn [snd] in R.
        repeat split; auto. intros ? ? [].
      * exists a, b. split; [exact E|].
        destruct S as (l1 & l2 & -> & Va & La & P1 & P2). cbn [snd] in La.
        exists ((x, y) :: l1), l2. repeat split; auto.
        -- eapply ltb_trans; eassumption.
        -- intros x' y' [H|H] V'; [inversion H; subst; apply ltb_leb_false; exact La|].
           apply P1; assumption.
    + (* rejected *)
      assert (A : adopt st (x, y) = st)
        by (unfold adopt; cbn [fst snd]; rewrite V, L; reflexivity).
      rewrite A.
      destruct (IH st) as [[E R]|(a & b & E & S)].
      * left. split; [exact E|]. intros x' y' [H|H] V'; [inversion H; subst; exact L|].
        apply R; assumption.
      * right. exists a, b. split; [exact E|].
        destruct S as (l1 & l2 & -> & Va & La & P1 & P2).
        exists ((x, y) :: l1), l2. repeat split; auto.
        intros x' y' [H|H] V'; [inversion H; subst; eapply leb_false_below; eassumption|].
        apply P1; assumption.
    + (* skipped *)
      assert (A : adopt st (x, y) = st)
        by (unfold adopt; cbn [fst snd]; rewrite V; reflexivity).
      rewrite A.
      destruct (IH st) as [[E R]|(a & b & E & S)].
      * left. split; [exact E|]. intros x' y' [H|H] V'; [inversion H; subst; congruence|].
        apply R; assumption.
      * right. exists a, b. split; [exact E|].
        destruct S as (l1 & l2 & -> & Va & La & P1 & P2).
        exists ((x, y) :: l1), l2. repeat split; auto.
        intros x' y' [H|H] V'; [inversion H; subst; congruence|].
        apply P1; assumption.
Qed.

(** What a full scan returns. *)
Lemma best_arbitrage_spec bids asks :
  (best_arbitrage bids asks = (None, 0%float) /\
   forall x y, In (x, y) (pairs asks bids) -> valid x y = true ->
               (0 <? profit x y)%float = false)
  \/
  (exists ask bid,
     best_arbitrage bids asks = (Some (trade_of ask bid), profit ask bid) /\
     selected (pairs asks bids) 0%float ask bid).
Proof.
  unfold best_arbitrage. rewrite scan_asks_flat.
  exact (fold_adopt_spec (pairs asks bids) (None, 0%float)).
Qed.

Lemma ltb_leb x y : (x <? y)%float = true -> (x <=? y)%float = true.
Proof. rewrite ltb_iff, leb_iff. tauto. Qed.

(** The selected pair is a maximum of the whole enumeration. *)
Lemma selected_max l b ask bid :
  selected l b ask bid ->
  forall x y, In (x, y) l -> valid x y = true ->
              (profit ask bid <? profit x y)%float = false.
Proof.
  intros (l1 & l2 & -> & Va & La & P1 & P2) x y Hin V.
  apply in_app_or in Hin. destruct Hin as [H|[H|H]].
  - destruct (profit ask bid <? profit x y)%float eqn:E; [|reflexivity].
    pose proof (P1 x y H V) as C. rewrite (ltb_leb _ _ E) in C. discriminate.
  - inversion H; subst. apply ltb_irrefl.
  - apply P2; assumption.
Qed.

Lemma selected_in l b ask bid : selected l b ask bid -> In (ask, bid) l.
Proof. intros (l1 & l2 & -> & _). apply in_elt. Qed.

Lemma in_pairs asks bids ask bid :
  In (ask, bid) (pairs asks bids) <->
  (exists ka, In (ka, ask) asks) /\ (exists kb, In (kb, bid) bids).
Proof.
  unfold pairs. rewrite in_flat_map. split.
  - intros ([ka a] & Ha & H). apply in_map_iff in H. destruct H as ([kb b] & E & Hb).
    cbn [snd] in E. inversion E; subst. split; eexists; eassumption.
  - intros [[ka Ha] [kb Hb]]. exists (ka, ask). split; [exact Ha|].
    apply in_map_iff. exists (kb, bid). split; [reflexivity | exact Hb].
Qed.

(* ================================================================= *)
(** ** What [update_volume] changes *)
(* ================================================================= *)

Lemma same_static_refl e : same_static e e.
Proof. repeat split. Qed.

Lemma same_frame_refl bk : same_frame bk bk.
Proof. induction bk; constructor; auto. split; [reflexivity | apply same_static_refl]. Qed.

Lemma same_frame_trans b1 b2 b3 : same_frame b1 b2 -> same_frame b2 b3 -> same_frame b1 b3.
Proof.
  intros H. revert b3. induction H as [|x y l l' (K & S1 & S2 & S3) _ IH]; intros b3 H3;
    inversion H3 as [|y' z ? l'' (K' & T1 & T2 & T3) H3']; subst; constructor.
  - unfold same_static. repeat split; congruence.
  - apply IH. assumption.
Qed.

(** Either nothing matched and the book is as it was, or the first matching
    entry, and only it, has a new volume. *)
Lemma update_volume_spec bk : forall exch f p q bk',
  update_volume bk exch f p q = Some bk' ->
  (bk' = bk /\ forall k e, In (k, e) bk -> matches e exch f p = false)
  \/
  (exists l1 k e l2 v,
     bk = l1 ++ (k, e) :: l2 /\
     bk' = l1 ++ (k, set_volume e v) :: l2 /\
     matches e exch f p = true /\
     (forall k' e', In (k', e') l1 -> matches e' exch f p = false) /\
     to_long (of_long (volume e) - q)%float = Some v).
Proof.
  induction bk as [|[k e] rest IH]; intros exch f p q bk' H; cbn [update_volume] in H.
  - inversion H; subst. left. split; [reflexivity | intros ? ? []].
  - fold (matches e exch f p) in H. destruct (matches e exch f p) eqn:M.
    + destruct (to_long (of_long (volume e) - q)%float) as [v|] eqn:T; [|discriminate].
      inversion H; subst. right. exists [], k, e, rest, v.
      repeat split; auto. intros ? ? [].
    + destruct (update_volume rest exch f p q) as [rest'|] eqn:U; [|discriminate].
      inversion H; subst.
      destruct (IH _ _ _ _ _ U) as [[-> N]|(l1 & k0 & e0 & l2 & v & -> & -> & M0 & N & T)].
      * left. split; [reflexivity|]. intros k' e' [E|E]; [inversion E; subst; exact M|].
        eapply N; eassumption.
      * right. exists ((k, e) :: l1), k0, e0, l2, v. repeat split; auto.
        intros k' e' [E|E]; [inversion E; subst; exact M|]. eapply N; eassumption.
Qed.

Lemma same_frame_update l1 k e v l2 :
  same_frame (l1 ++ (k, e) :: l2) (l1 ++ (k, set_volume e v) :: l2).
Proof.
  apply Forall2_app; [apply same_frame_refl|].
  constructor; [|apply same_frame_refl]. split; [reflexivity|]. repeat split.
Qed.

(** [update_volume] keeps the keys, their order, and every exchange, fee and
    price. *)
Lemma update_volume_frame bk exch f p q bk' :
  update_volume bk exch f p q = Some bk' -> same_frame bk bk'.
Proof.
  intros H.
  destruct (update_volume_spec _ _ _ _ _ _ H) as [[-> _]|(l1 & k & e & l2 & v & -> & -> & _)].
  - apply same_frame_refl.
  - apply same_frame_update.
Qed.

Lemma no_revival_refl bk : no_revival bk bk.
Proof.
  induction bk; constructor; auto. split; [apply same_static_refl | auto].
Qed.

Lemma update_volume_no_revival bk exch f p qty bk' :
  0 <= qty ->
  update_volume bk exch f p (of_long qty) = Some bk' -> no_revival bk bk'.
Proof.
  intros Hq H.
  destruct (update_volume_spec _ _ _ _ _ _ H)
    as [[-> _]|(l1 & k & e & l2 & v & -> & -> & _ & _ & T)].
  - apply no_revival_refl.
  - apply Forall2_app; [apply no_revival_refl|].
    constructor; [|apply no_revival_refl]. split; [repeat split|].
    cbn [snd set_volume volume]. intros Hv.
    destruct (Z_lt_le_dec 0 (volume e)) as [|Hle]; [assumption|exfalso].
    pose proof (sub_nonpos_to_long _ _ _ Hle Hq T). lia.
Qed.

Lemma Forall2_In_r {A B} (R : A -> B -> Prop) l l' :
  Forall2 R l l' -> forall y, In y l' -> exists x, In x l /\ R x y.
Proof.
  induction 1 as [|x y0 l l' HR _ IH]; intros y []; subst.
  - exists x. split; [left; reflexivity | exact HR].
  - destruct (IH y H) as (x0 & Hin & Hr). exists x0. split; [right; exact Hin | exact Hr].
Qed.

Lemma no_revival_pairs asks asks' bids bids' :
  no_revival asks asks' -> no_revival bids bids' ->
  forall x' y', In (x', y') (pairs asks' bids') -> valid x' y' = true ->
  exists x y, In (x, y) (pairs asks bids) /\ valid x y = true /\
              profit x y = profit x' y'.
Proof.
  intros Ha Hb x' y' Hin V. apply in_pairs in Hin. destruct Hin as [[ka Hx] [kb Hy]].
  destruct (Forall2_In_r _ _ _ Ha _ Hx) as ([ka0 x] & Hx0 & (Sx1 & Sx2 & Sx3) & Vx).
  destruct (Forall2_In_r _ _ _ Hb _ Hy) as ([kb0 y] & Hy0 & (Sy1 & Sy2 & Sy3) & Vy).
  cbn [snd] in *. exists x, y. split; [apply in_pairs; split; eexists; eassumption|].
  unfold valid, profit in *.
  apply andb_true_iff in V. destruct V as [V V3].
  apply andb_true_iff in V. destruct V as [V1 V2].
  apply Z.ltb_lt in V1, V2.
  rewrite <- Sx1, <- Sy1, <- Sx2, <- Sx3, <- Sy2, <- Sy3, V3.
  rewrite (proj2 (Z.ltb_lt _ _) (Vx V1)), (proj2 (Z.ltb_lt _ _) (Vy V2)).
  split; reflexivity.
Qed.

(* ================================================================= *)
(** ** One pass of the loop, and induction over a run *)
(* ================================================================= *)

Lemma step_stop bids asks :
  step bids asks = Stop ->
  forall x y, In (x, y) (pairs asks bids) -> valid x y = true ->
              (0 <? profit x y)%float = false.
Proof.
  unfold step. intros H.
  destruct (best_arbitrage_spec bids asks) as [[E R]|(ask & bid & E & S)].
  - exact R.
  - rewrite E in H. cbn [fst] in H.
    repeat match type of H with match ?u with _ => _ end = _ => destruct u end;
      discriminate.
Qed.

Lemma step_fault bids asks t :
  step bids asks = Fault t ->
  exists ask bid, t = trade_of ask bid /\ selected (pairs asks bids) 0%float ask bid.
Proof.
  unfold step. intros H.
  destruct (best_arbitrage_spec bids asks) as [[E R]|(ask & bid & E & S)];
    rewrite E in H; cbn [fst] in H; [discriminate|].
  exists ask, bid. split; [|exact S].
  repeat match type of H with match ?u with _ => _ end = _ => destruct u end;
    inversion H; reflexivity.
Qed.

Lemma step_next bids asks t bids' asks' :
  step bids asks = Next t bids' asks' ->
  exists ask bid,
    t = trade_of ask bid /\
    selected (pairs asks bids) 0%float ask bid /\
    update_volume asks (exchange ask) (fee ask) (price ask)
                  (of_long (Z.min (volume ask) (volume bid))) = Some asks' /\
    update_volume bids (exchange bid) (fee bid) (price bid)
                  (of_long (Z.min (volume ask) (volume bid))) = Some bids'.
Proof.
  unfold step. intros H.
  destruct (best_arbitrage_spec bids asks) as [[E R]|(ask & bid & E & S)];
    rewrite E in H; cbn [fst] in H; [discriminate|].
  exists ask, bid. cbn [trade_of buy_exchange buy_fee buy_price sell_exchange sell_fee
                        sell_price trade_volume] in H.
  destruct (update_volume asks _ _ _ _) as [a1|]; [|discriminate].
  destruct (update_volume bids _ _ _ _) as [b1|]; [|discriminate].
  inversion H; subst. auto.
Qed.

Lemma valid_inv ask bid :
  valid ask bid = true ->
  0 < volume ask /\ 0 < volume bid /\ exchange ask <> exchange bid.
Proof.
  unfold valid. intros V.
  apply andb_true_iff in V. destruct V as [V V3].
  apply andb_true_iff in V. destruct V as [V1 V2].
  apply Z.ltb_lt in V1, V2. apply negb_true_iff in V3.
  repeat split; try assumption. intros E. apply String.eqb_eq in E. congruence.
Qed.

Lemma selected_valid l b ask bid : selected l b ask bid -> valid ask bid = true.
Proof. intros (l1 & l2 & _ & V & _). exact V. Qed.

Lemma selected_above l b ask bid : selected l b ask bid -> (b <? profit ask bid)%float = true.
Proof. intros (l1 & l2 & _ & _ & L & _). exact L. Qed.

(** To show that the trades of every run satisfy [Q], keep an invariant [P]
    of the loop that gives [Q] and survives the push of a selected trade. *)
Lemma loop_ind (P : list Trade -> book -> book -> Prop) (Q : list Trade -> Prop) :
  (forall ts b a, P ts b a -> Q ts) ->
  (forall ts b a ask bid,
     P ts b a -> selected (pairs a b) 0%float ask bid -> Q (ts ++ [trade_of ask bid])) ->
  (forall ts b a ask bid b' a',
     P ts b a -> selected (pairs a b) 0%float ask bid ->
     step b a = Next (trade_of ask bid) b' a' -> P (ts ++ [trade_of ask bid]) b' a') ->
  forall fuel ts b a, P ts b a -> Q (trades_of (loop fuel ts b a)).
Proof.
  intros HQ Hpush Hnext. induction fuel as [|fuel IH]; intros ts b a HP; cbn [loop].
  - exact (HQ _ _ _ HP).
  - destruct (step b a) as [|t|t b' a'] eqn:E; cbn [trades_of].
    + exact (HQ _ _ _ HP).
    + destruct (step_fault _ _ _ E) as (ask & bid & -> & S). eapply Hpush; eassumption.
    + destruct (step_next _ _ _ _ _ E) as (ask & bid & -> & S & _). apply IH.
      eapply Hnext; eassumption.
Qed.

(* ================================================================= *)
(** ** Properties of every run *)
(* ================================================================= *)

(** A property of the trade built for any selectable pair holds of every
    trade of every run. *)
Lemma trades_forall (R : Trade -> Prop) :
  (forall ask bid, valid ask bid = true -> (0 <? profit ask bid)%float = true ->
                   R (trade_of ask bid)) ->
  forall fuel bids asks, Forall R (trades_of (find_best_arbitrage fuel bids asks)).
Proof.
  intros HR fuel bids asks. unfold find_best_arbitrage.
  apply (loop_ind (fun ts _ _ => Forall R ts) (Forall R)).
  - auto.
  - intros ts b a ask bid HP S. apply Forall_app. split; [exact HP|].
    constructor; [|constructor].
    apply HR; [eapply selected_valid | eapply selected_above]; eassumption.
  - intros ts b a ask bid b' a' HP S _. apply Forall_app. split; [exact HP|].
    constructor; [|constructor].
    apply HR; [eapply selected_valid | eapply selected_above]; eassumption.
  - constructor.
Qed.

Lemma non_increasing_snoc ts t :
  non_increasing ts ->
  (forall ts0 t0, ts = ts0 ++ [t0] ->
                  (profit_per_unit t <=? profit_per_unit t0)%float = true) ->
  non_increasing (ts ++ [t]).
Proof.
  intros Hn Hl i t1 t2 H1 H2.
  destruct (Nat.lt_ge_cases (S i) (List.length ts)) as [Hlt|Hge].
  - rewrite nth_error_app1 in H1 by lia. rewrite nth_error_app1 in H2 by lia.
    eapply Hn; eassumption.
  - assert (Hi : (i < List.length ts)%nat).
    { apply nth_error_Some. intros C.
      assert (Hlen : (S i < List.length (ts ++ [t]))%nat)
        by (apply nth_error_Some; congruence).
      rewrite length_app in Hlen. cbn in Hlen.
      rewrite nth_error_app2 in H1 by (apply nth_error_None; exact C).
      destruct (i - List.length ts)%nat eqn:D; cbn in H1.
      - apply nth_error_None in C. lia.
      - destruct n; discriminate. }
    assert (S i = List.length ts) by lia.
    rewrite nth_error_app2 in H2 by lia.
    replace (S i - List.length ts)%nat with 0%nat in H2 by lia.
    cbn in H2. inversion H2; subst t2.
    rewrite nth_error_app1 in H1 by lia.
    destruct (exists_last (l := ts)) as (ts0 & t0 & E); [intros ->; cbn in Hi; lia|].
    subst ts. rewrite length_app in H. cbn in H.
    rewrite nth_error_app2 in H1 by lia.
    replace (i - List.length ts0)%nat with 0%nat in H1 by lia.
    cbn in H1. inversion H1; subst t1. eapply Hl; reflexivity.
Qed.

(** C2.  Every trade a run of [find_best_arbitrage] has pushed, and so
    every trade of the sequence it returns, has [profit_per_unit > 0],
    whatever the two books are. *)
Theorem trades_profitable fuel bids asks :
  Forall (fun t => (0 <? profit_per_unit t)%float = true)
         (trades_of (find_best_arbitrage fuel bids asks)).
Proof.
  apply trades_forall. intros ask bid _ L. exact L.
Qed.

(** C7.  In every trade of every run the buy-side exchange differs from the
    sell-side exchange. *)
Theorem trades_cross_venue fuel bids asks :
  Forall (fun t => buy_exchange t <> sell_exchange t)
         (trades_of (find_best_arbitrage fuel bids asks)).
Proof.
  apply trades_forall. intros ask bid V _. cbn [trade_of buy_exchange sell_exchange].
  apply valid_inv in V. tauto.
Qed.

(** C6, as amended.  The formulas hold with the operations of [double],
    each rounded to nearest, and the quantity converted to [double]: a scan
    is the fold, over the pairs in the order of the nested loops, that
    takes a pair when it is not skipped and its profit per unit, computed
    by these formulas, is above the best so far; and every trade of every
    run holds the profit per unit and the net profit the formulas give on
    the prices, fees and quantity it holds. *)
Theorem profit_formulas :
  (forall bids asks,
     best_arbitrage bids asks =
     fold_left
       (fun (st : scan_state) (ab : Entry * Entry) =>
          let ask := fst ab in
          let bid := snd ab in
          let effective_cost := (price ask * (1 + fee ask))%float in
          let effective_proceed := (price bid * (1 - fee bid))%float in
          let profit_per_unit := (effective_proceed - effective_cost)%float in
          let quantity := Z.min (volume ask) (volume bid) in
          if valid ask bid && (snd st <? profit_per_unit)%float
          then (Some (mkTrade (exchange ask) (exchange bid) (fee ask) (fee bid)
                              (price ask) (price bid) quantity profit_per_unit
                              (profit_per_unit * of_long quantity)%float),
                profit_per_unit)
          else st)
       (pairs asks bids) (None, 0%float))
  /\
  (forall fuel bids asks,
     Forall (fun t =>
               profit_per_unit t
               = (sell_price t * (1 - sell_fee t) - buy_price t * (1 + buy_fee t))%float
               /\ net_profit t = (profit_per_unit t * of_long (trade_volume t))%float)
            (trades_of (find_best_arbitrage fuel bids asks))).
Proof.
  split.
  - intros bids asks. unfold best_arbitrage. rewrite scan_asks_flat. reflexivity.
  - intros fuel bids asks. apply trades_forall. intros ask bid _ _.
    split; reflexivity.
Qed.

(** C6, as stated, fails: the formulas do not hold in exact arithmetic.
    (1) In the run of [main] every number of the first trade is finite, and
    its profit per unit is not the exact value of the formula on its prices
    and fees: each of the three operations has rounded.  (2) With a
    quantity of [2^53 + 3] and a profit per unit of exactly 1, the net
    profit is [2^53 + 4]: the quantity is rounded when it is converted. *)
Lemma profit_formulas_not_exact :
  (exists t ts bids' asks',
     find_best_arbitrage 5 sample_bids sample_asks = Returned (t :: ts) bids' asks' /\
     finite_trade t = true /\
     ~ (real (profit_per_unit t) == exact_profit t)%Q)
  /\
  (exists t bids' asks',
     find_best_arbitrage 2 odd_bids odd_asks = Returned [t] bids' asks' /\
     finite_trade t = true /\
     trade_volume t = 2 ^ 53 + 3 /\
     (real (profit_per_unit t) == 1)%Q /\
     (real (net_profit t) == inject_Z (2 ^ 53 + 4))%Q /\
     ~ (real (net_profit t) == exact_net_profit t)%Q).
Proof.
  split.
  - do 4 eexists. split; [vm_compute; reflexivity|]. split; [vm_compute; reflexivity|].
    intros H. apply Qeq_bool_iff in H. vm_compute in H. discriminate H.
  - do 3 eexists. split; [vm_compute; reflexivity|]. split; [vm_compute; reflexivity|].
    split; [vm_compute; reflexivity|].
    split; [apply Qeq_bool_iff; vm_compute; reflexivity|].
    split; [apply Qeq_bool_iff; vm_compute; reflexivity|].
    intros H. apply Qeq_bool_iff in H. vm_compute in H. discriminate H.
Qed.

(** C1.  One pass of the loop on books [bids], [asks].  When the scan ends
    with a trade, that trade is the one built for a pair [(ask, bid)] that
    is [selected]: it is in the enumeration, has both volumes positive and
    differing venues, its profit is above 0, it is strictly above every
    unskipped pair enumerated before it and no unskipped pair enumerated
    after it is above it; the traded quantity is
    [min(ask.volume, bid.volume)] on the volumes of that moment; and that
    trade is the one the pass pushes.  When the scan ends with no trade no
    unskipped pair has a profit above 0 and the pass stops the loop. *)
Theorem scan_selects_first_best bids asks :
  match best_arbitrage bids asks with
  | (Some t, best) =>
      exists ask bid,
        selected (pairs asks bids) 0%float ask bid /\
        t = trade_of ask bid /\
        best = profit ask bid /\
        profit_per_unit t = profit ask bid /\
        trade_volume t = Z.min (volume ask) (volume bid) /\
        (step bids asks = Fault t \/ exists bids' asks', step bids asks = Next t bids' asks')
  | (None, _) =>
      (forall x y, In (x, y) (pairs asks bids) -> valid x y = true ->
                   (0 <? profit x y)%float = false) /\
      step bids asks = Stop
  end.
Proof.
  destruct (best_arbitrage_spec bids asks) as [[E R]|(ask & bid & E & S)].
  - rewrite E. split; [exact R|]. unfold step. rewrite E. reflexivity.
  - rewrite E. exists ask, bid. repeat split; try assumption.
    unfold step. rewrite E. cbn [fst].
    destruct (update_volume asks _ _ _ _); [|left; reflexivity].
    destruct (update_volume bids _ _ _ _); [|left; reflexivity].
    right. eauto.
Qed.

Lemma existsb_profitable_false asks bids :
  existsb (fun ab => profitable (fst ab) (snd ab)) (pairs asks bids) = false ->
  forall x y, In (x, y) (pairs asks bids) -> valid x y = true ->
              (0 <? profit x y)%float = false.
Proof.
  intros H x y Hin V.
  destruct (0 <? profit x y)%float eqn:L; [|reflexivity].
  assert (T : existsb (fun ab => profitable (fst ab) (snd ab)) (pairs asks bids) = true).
  { apply existsb_exists. exists (x, y). split; [exact Hin|].
    unfold profitable. cbn [fst snd]. rewrite V, L. reflexivity. }
  congruence.
Qed.

(** C9.  When no pair of the two books is [profitable] (positive volumes,
    differing venues, profit above 0), the function returns at its first
    pass, with no trade and both books as they were. *)
Theorem no_opportunity_is_noop bids asks :
  existsb (fun ab => profitable (fst ab) (snd ab)) (pairs asks bids) = false ->
  forall fuel, find_best_arbitrage (S fuel) bids asks = Returned [] bids asks.
Proof.
  intros H fuel. unfold find_best_arbitrage. cbn [loop].
  destruct (best_arbitrage_spec bids asks) as [[E R]|(ask & bid & E & S)].
  - unfold step. rewrite E. reflexivity.
  - exfalso. pose proof (existsb_profitable_false _ _ H ask bid (selected_in _ _ _ _ S)
                           (selected_valid _ _ _ _ S)) as C.
    rewrite (selected_above _ _ _ _ S) in C. discriminate.
Qed.

Lemma no_opportunity_is_noop_witness :
  find_best_arbitrage 1 idle_bids idle_asks = Returned [] idle_bids idle_asks.
Proof. apply (no_opportunity_is_noop idle_bids idle_asks). reflexivity. Defined.

Lemma step_next_no_revival bids asks ask bid bids' asks' :
  selected (pairs asks bids) 0%float ask bid ->
  step bids asks = Next (trade_of ask bid) bids' asks' ->
  no_revival asks asks' /\ no_revival bids bids'.
Proof.
  intros S H. unfold step in H.
  destruct (fst (best_arbitrage bids asks)) as [t|]; [|discriminate].
  destruct (update_volume asks _ _ _ _) as [a1|] eqn:Ua; [|discriminate].
  destruct (update_volume bids _ _ _ _) as [b1|] eqn:Ub; [|discriminate].
  inversion H; subst. clear H.
  pose proof (valid_inv _ _ (selected_valid _ _ _ _ S)) as (Va & Vb & _).
  cbn [trade_of trade_volume] in Ua, Ub.
  split; eapply update_volume_no_revival; try eassumption; lia.
Qed.

(** C5.  In the trades of every run, each trade's [profit_per_unit] is at
    most that of the trade before it. *)
Theorem profits_non_increasing fuel bids asks :
  non_increasing (trades_of (find_best_arbitrage fuel bids asks)).
Proof.
  unfold find_best_arbitrage.
  apply (loop_ind
           (fun ts b a =>
              non_increasing ts /\
              Forall (fun t => (0 <? profit_per_unit t)%float = true) ts /\
              forall ts0 t0, ts = ts0 ++ [t0] ->
                forall x y, In (x, y) (pairs a b) -> valid x y = true ->
                            (profit_per_unit t0 <? profit x y)%float = false)
           non_increasing).
  - tauto.
  - intros ts b a ask bid (Hn & Hp & Hb) S. apply non_increasing_snoc; [exact Hn|].
    intros ts0 t0 ->. cbn [trade_of profit_per_unit].
    apply Forall_app in Hp. destruct Hp as [_ Hp]. inversion Hp; subst.
    apply not_ltb_leb.
    + eapply ltb_not_nan_r; eassumption.
    + eapply ltb_not_nan_r. eapply selected_above; eassumption.
    + eapply Hb; [reflexivity | eapply selected_in | eapply selected_valid]; eassumption.
  - intros ts b a ask bid b' a' (Hn & Hp & Hb) S E.
    assert (Hpos : (0 <? profit ask bid)%float = true)
      by (eapply selected_above; eassumption).
    repeat split.
    + apply non_increasing_snoc; [exact Hn|].
      intros ts0 t0 ->. cbn [trade_of profit_per_unit].
      apply Forall_app in Hp. destruct Hp as [_ Hp]. inversion Hp; subst.
      apply not_ltb_leb.
      * eapply ltb_not_nan_r; eassumption.
      * eapply ltb_not_nan_r; eassumption.
      * eapply Hb; [reflexivity | eapply selected_in | eapply selected_valid]; eassumption.
    + apply Forall_app. split; [exact Hp|]. constructor; [exact Hpos | constructor].
    + intros ts0 t0 E0 x' y' Hin V.
      apply app_inj_tail in E0. destruct E0 as [_ <-]. cbn [trade_of profit_per_unit].
      destruct (step_next_no_revival _ _ _ _ _ _ S E) as [Ra Rb].
      destruct (no_revival_pairs _ _ _ _ Ra Rb x' y' Hin V) as (x & y & Hin0 & V0 & <-).
      eapply selected_max; eassumption.
  - repeat split.
    + intros i t1 t2 H. destruct i; discriminate.
    + constructor.
    + intros ts0 t0 E. destruct ts0; discriminate.
Qed.

(* ================================================================= *)
(** ** Books without ambiguous entries *)
(* ================================================================= *)

Lemma unique_tuples_split l1 : forall k e l2,
  unique_tuples (l1 ++ (k, e) :: l2) = true ->
  forall k' e', In (k', e') l1 -> matches e' (exchange e) (fee e) (price e) = false.
Proof.
  induction l1 as [|[k0 e0] l1 IH]; intros k e l2 H k' e' Hin; [destruct Hin|].
  cbn [app unique_tuples] in H. apply andb_true_iff in H. destruct H as [H1 H2].
  destruct Hin as [E|Hin].
  - inversion E; subst. rewrite forallb_forall in H1.
    specialize (H1 (k, e) (in_elt _ _ _)). cbn [snd] in H1.
    apply negb_true_iff in H1. exact H1.
  - eapply IH; eassumption.
Qed.

Lemma unique_tuples_frame bk bk' :
  same_frame bk bk' -> unique_tuples bk' = unique_tuples bk.
Proof.
  induction 1 as [|[k e] [k' e'] l l' (_ & S1 & S2 & S3) HF IH]; [reflexivity|].
  cbn [unique_tuples snd] in *. rewrite IH. f_equal.
  unfold matches. rewrite S1, S2, S3. clear IH.
  induction HF as [|[k1 e1] [k1' e1'] m m' (_ & T1 & T2 & T3) _ IHm]; [reflexivity|].
  cbn [forallb snd] in *. rewrite IHm, T1, T2, T3. reflexivity.
Qed.

(** A pair the scan can select has fees and prices that compare equal to
    themselves: a NaN among them would make the profit NaN. *)
Lemma profit_not_nan ask bid b :
  (b <? profit ask bid)%float = true ->
  ~ is_nan (fee ask) /\ ~ is_nan (price ask) /\ ~ is_nan (fee bid) /\ ~ is_nan (price bid).
Proof.
  intros L. apply ltb_not_nan_r in L. unfold profit in L.
  apply sub_not_nan in L. destruct L as [L1 L2].
  apply mul_not_nan in L1. destruct L1 as [Pb Fb].
  apply mul_not_nan in L2. destruct L2 as [Pa Fa].
  apply sub_not_nan in Fb. apply add_not_nan in Fa. tauto.
Qed.

Lemma selected_matches_itself ask bid b :
  (b <? profit ask bid)%float = true ->
  matches ask (exchange ask) (fee ask) (price ask) = true /\
  matches bid (exchange bid) (fee bid) (price bid) = true.
Proof.
  intros L. destruct (profit_not_nan _ _ _ L) as (Fa & Pa & Fb & Pb).
  unfold matches. rewrite !String.eqb_refl, !eqb_refl by assumption. split; reflexivity.
Qed.

(** In a book without ambiguous entries, [update_volume] called with the
    exchange, fee and price of one of its entries decrements that entry. *)
Lemma update_volume_unique l1 : forall k e l2 q,
  unique_tuples (l1 ++ (k, e) :: l2) = true ->
  matches e (exchange e) (fee e) (price e) = true ->
  update_volume (l1 ++ (k, e) :: l2) (exchange e) (fee e) (price e) q =
  match to_long (of_long (volume e) - q)%float with
  | Some v => Some (l1 ++ (k, set_volume e v) :: l2)
  | None => None
  end.
Proof.
  induction l1 as [|[k0 e0] l1 IH]; intros k e l2 q U M.
  - cbn [app update_volume]. fold (matches e (exchange e) (fee e) (price e)).
    rewrite M. reflexivity.
  - pose proof (unique_tuples_split _ _ _ _ U k0 e0 (or_introl eq_refl)) as N.
    cbn [app update_volume]. fold (matches e0 (exchange e) (fee e) (price e)).
    rewrite N. cbn [app unique_tuples] in U. apply andb_true_iff in U.
    rewrite (IH _ _ _ _ (proj2 U) M).
    destruct (to_long (of_long (volume e) - q)%float); reflexivity.
Qed.

(** One pass on books without ambiguous entries: it stops, or it has
    selected a pair and decrements exactly the two entries of that pair. *)
Lemma step_unique bids asks :
  unique_tuples bids = true -> unique_tuples asks = true ->
  step bids asks = Stop \/
  exists ask bid la1 ka la2 lb1 kb lb2,
    selected (pairs asks bids) 0%float ask bid /\
    asks = la1 ++ (ka, ask) :: la2 /\
    bids = lb1 ++ (kb, bid) :: lb2 /\
    step bids asks =
      let qty := of_long (Z.min (volume ask) (volume bid)) in
      match to_long (of_long (volume ask) - qty)%float with
      | None => Fault (trade_of ask bid)
      | Some va =>
          match to_long (of_long (volume bid) - qty)%float with
          | None => Fault (trade_of ask bid)
          | Some vb => Next (trade_of ask bid)
                            (lb1 ++ (kb, set_volume bid vb) :: lb2)
                            (la1 ++ (ka, set_volume ask va) :: la2)
          end
      end.
Proof.
  intros Ub Ua.
  destruct (best_arbitrage_spec bids asks) as [[E R]|(ask & bid & E & S)].
  - left. unfold step. rewrite E. reflexivity.
  - right.
    pose proof (selected_in _ _ _ _ S) as Hin. apply in_pairs in Hin.
    destruct Hin as [[ka Ha] [kb Hb]].
    destruct (in_split _ _ Ha) as (la1 & la2 & ->).
    destruct (in_split _ _ Hb) as (lb1 & lb2 & ->).
    exists ask, bid, la1, ka, la2, lb1, kb, lb2. repeat split; try assumption.
    destruct (selected_matches_itself _ _ _ (selected_above _ _ _ _ S)) as [Ma Mb].
    unfold step. rewrite E.
    cbn [fst trade_of buy_exchange buy_fee buy_price sell_exchange sell_fee
             sell_price trade_volume].
    rewrite (update_volume_unique la1 ka ask la2 _ Ua Ma).
    rewrite (update_volume_unique lb1 kb bid lb2 _ Ub Mb).
    cbv zeta.
    destruct (to_long (of_long (volume ask) - _)%float); [|reflexivity].
    destruct (to_long (of_long (volume bid) - _)%float); reflexivity.
Qed.

Lemma volumes_within_weaken lo hi lo' hi' bk :
  lo' <= lo -> hi <= hi' ->
  volumes_within lo hi bk = true -> volumes_within lo' hi' bk = true.
Proof.
  intros Hlo Hhi. unfold volumes_within. rewrite !forallb_forall.
  intros H ke Hin. specialize (H ke Hin). apply andb_true_iff in H.
  destruct H as [H1 H2]. apply Z.leb_le in H1, H2.
  apply andb_true_iff. split; apply Z.leb_le; lia.
Qed.

Lemma volumes_within_elt lo hi l1 k e l2 :
  volumes_within lo hi (l1 ++ (k, e) :: l2) = true -> lo <= volume e <= hi.
Proof.
  unfold volumes_within. rewrite forallb_forall. intros H.
  specialize (H (k, e) (in_elt _ _ _)). cbn [snd] in H.
  apply andb_true_iff in H. destruct H as [H1 H2]. apply Z.leb_le in H1, H2. lia.
Qed.

Lemma volumes_within_update lo hi l1 k e l2 v :
  volumes_within lo hi (l1 ++ (k, e) :: l2) = true -> lo <= v <= hi ->
  volumes_within lo hi (l1 ++ (k, set_volume e v) :: l2) = true.
Proof.
  unfold volumes_within. rewrite !forallb_app. cbn [forallb snd set_volume volume].
  intros H Hv. apply andb_true_iff in H. destruct H as [H1 H2].
  apply andb_true_iff in H2. destruct H2 as [_ H2]. rewrite H1, H2.
  rewrite (proj2 (Z.leb_le lo v)), (proj2 (Z.leb_le v hi)) by lia. reflexivity.
Qed.

Lemma live_update l1 k e l2 v :
  0 < volume e ->
  (live (l1 ++ (k, set_volume e v) :: l2) + (if (0 <? v)%Z then 0 else 1)
   = live (l1 ++ (k, e) :: l2))%nat.
Proof.
  intros He. unfold live. rewrite !filter_app, !length_app.
  cbn [filter snd set_volume volume]. rewrite (proj2 (Z.ltb_lt _ _) He).
  destruct (0 <? v); cbn [List.length]; lia.
Qed.


(** What a pass that goes on has done, on well-formed books. *)
Lemma step_next_well_formed bids asks t bids' asks' :
  well_formed bids asks ->
  step bids asks = Next t bids' asks' ->
  exists ask bid la1 ka la2 lb1 kb lb2 va vb,
    t = trade_of ask bid /\
    selected (pairs asks bids) 0%float ask bid /\
    asks = la1 ++ (ka, ask) :: la2 /\ asks' = la1 ++ (ka, set_volume ask va) :: la2 /\
    bids = lb1 ++ (kb, bid) :: lb2 /\ bids' = lb1 ++ (kb, set_volume bid vb) :: lb2 /\
    to_long (of_long (volume ask) - of_long (Z.min (volume ask) (volume bid)))%float
      = Some va /\
    to_long (of_long (volume bid) - of_long (Z.min (volume ask) (volume bid)))%float
      = Some vb /\
    (va = 0 \/ vb = 0) /\
    well_formed bids' asks'.
Proof.
  intros (Ub & Ua & Wb & Wa) H.
  destruct (step_unique bids asks Ub Ua)
    as [C|(ask & bid & la1 & ka & la2 & lb1 & kb & lb2 & S & Ea & Eb & E)];
    [congruence|].
  rewrite H in E. cbv zeta in E.
  destruct (to_long (of_long (volume ask) - _)%float) as [va|] eqn:Ta; [|discriminate].
  destruct (to_long (of_long (volume bid) - _)%float) as [vb|] eqn:Tb; [|discriminate].
  inversion E; subst t bids' asks'. clear E.
  exists ask, bid, la1, ka, la2, lb1, kb, lb2, va, vb.
  pose proof (valid_inv _ _ (selected_valid _ _ _ _ S)) as (Va & Vb & _).
  subst asks bids.
  pose proof (volumes_within_elt _ _ _ _ _ _ Wa) as Ra.
  pose proof (volumes_within_elt _ _ _ _ _ _ Wb) as Rb.
  repeat split; try assumption; try reflexivity.
  - destruct (Z.min_spec (volume ask) (volume bid)) as [[_ M]|[_ M]]; rewrite M in *.
    + left. rewrite sub_self_to_long in Ta by lia. congruence.
    + right. rewrite sub_self_to_long in Tb by lia. congruence.
  - rewrite (unique_tuples_frame _ _ (same_frame_update lb1 kb bid vb lb2)). exact Ub.
  - rewrite (unique_tuples_frame _ _ (same_frame_update la1 ka ask va la2)). exact Ua.
  - apply volumes_within_update; [exact Wb | eapply to_long_range; eassumption].
  - apply volumes_within_update; [exact Wa | eapply to_long_range; eassumption].
Qed.




Lemma step_bounded bids asks :
  bounded bids asks ->
  step bids asks = Stop \/
  exists ask bid la1 ka la2 lb1 kb lb2 va vb,
    selected (pairs asks bids) 0%float ask bid /\
    asks = la1 ++ (ka, ask) :: la2 /\
    bids = lb1 ++ (kb, bid) :: lb2 /\
    step bids asks = Next (trade_of ask bid)
                          (lb1 ++ (kb, set_volume bid vb) :: lb2)
                          (la1 ++ (ka, set_volume ask va) :: la2) /\
    (va = 0 \/ vb = 0) /\
    bounded (lb1 ++ (kb, set_volume bid vb) :: lb2)
            (la1 ++ (ka, set_volume ask va) :: la2).
Proof.
  intros (Ub & Ua & Wb & Wa).
  destruct (step_unique bids asks Ub Ua)
    as [C|(ask & bid & la1 & ka & la2 & lb1 & kb & lb2 & S & Ea & Eb & E)];
    [left; exact C | right].
  pose proof (valid_inv _ _ (selected_valid _ _ _ _ S)) as (Va & Vb & _).
  subst asks bids.
  pose proof (volumes_within_elt _ _ _ _ _ _ Wa) as Ra.
  pose proof (volumes_within_elt _ _ _ _ _ _ Wb) as Rb.
  cbv zeta in E.
  destruct (sub_defined (volume ask) (Z.min (volume ask) (volume bid)) ltac:(lia) ltac:(lia))
    as (va & Ta & Rva).
  destruct (sub_defined (volume bid) (Z.min (volume ask) (volume bid)) ltac:(lia) ltac:(lia))
    as (vb & Tb & Rvb).
  rewrite Ta, Tb in E.
  exists ask, bid, la1, ka, la2, lb1, kb, lb2, va, vb.
  split; [exact S|]. split; [reflexivity|]. split; [reflexivity|]. split; [exact E|].
  assert (ML : SAFE_MAX <= LONG_MAX) by (unfold SAFE_MAX, LONG_MAX; lia).
  split.
  - destruct (Z.min_spec (volume ask) (volume bid)) as [[_ M]|[_ M]]; rewrite M in *.
    + left. rewrite sub_self_to_long in Ta by lia. congruence.
    + right. rewrite sub_self_to_long in Tb by lia. congruence.
  - repeat split.
    + rewrite (unique_tuples_frame _ _ (same_frame_update lb1 kb bid vb lb2)). exact Ub.
    + rewrite (unique_tuples_frame _ _ (same_frame_update la1 ka ask va la2)). exact Ua.
    + apply volumes_within_update; [exact Wb | exact Rvb].
    + apply volumes_within_update; [exact Wa | exact Rva].
Qed.

Lemma reachable_bounded bids0 asks0 bids asks :
  bounded bids0 asks0 -> reachable bids0 asks0 bids asks -> bounded bids asks.
Proof.
  intros B R. induction R as [|b a t b' a' _ IH E]; [exact B|].
  destruct (step_bounded _ _ IH)
    as [C|(ask & bid & la1 & ka & la2 & lb1 & kb & lb2 & va & vb & _ & _ & _ & E' & _ & B')];
    [congruence|].
  rewrite E in E'. inversion E'; subst. exact B'.
Qed.

Lemma bounded_of_nonneg bids asks :
  unique_tuples bids = true -> unique_tuples asks = true ->
  volumes_within 0 SAFE_MAX bids = true -> volumes_within 0 SAFE_MAX asks = true ->
  bounded bids asks.
Proof.
  intros Ub Ua Wb Wa. repeat split; try assumption;
    eapply volumes_within_weaken; try eassumption; unfold LONG_MIN; lia.
Qed.




(* ================================================================= *)
(** ** Validated books, and termination *)
(* ================================================================= *)

Lemma total_volume_app l1 l2 :
  total_volume (l1 ++ l2) = total_volume l1 + total_volume l2.
Proof.
  induction l1 as [|[k e] l1 IH]; cbn [app total_volume]; lia.
Qed.

Lemma total_volume_elt l1 k e l2 :
  total_volume (l1 ++ (k, e) :: l2) = total_volume l1 + volume e + total_volume l2.
Proof. rewrite total_volume_app. cbn [total_volume]. lia. Qed.

Lemma total_volume_nonneg hi bk : volumes_within 0 hi bk = true -> 0 <= total_volume bk.
Proof.
  induction bk as [|[k e] bk IH]; cbn [volumes_within forallb total_volume snd]; [lia|].
  intros H. apply andb_true_iff in H. destruct H as [H1 H2].
  apply andb_true_iff in H1. destruct H1 as [H1 _]. apply Z.leb_le in H1.
  specialize (IH H2). lia.
Qed.

(** One pass on validated books: it stops, or it decrements the two
    entries of the selected pair by exactly the traded quantity, and the
    books stay validated. *)
Lemma step_validated bids asks :
  validated bids asks ->
  step bids asks = Stop \/
  exists ask bid la1 ka la2 lb1 kb lb2,
    let qty := Z.min (volume ask) (volume bid) in
    selected (pairs asks bids) 0%float ask bid /\
    asks = la1 ++ (ka, ask) :: la2 /\
    bids = lb1 ++ (kb, bid) :: lb2 /\
    1 <= qty /\
    step bids asks = Next (trade_of ask bid)
                          (lb1 ++ (kb, set_volume bid (volume bid - qty)) :: lb2)
                          (la1 ++ (ka, set_volume ask (volume ask - qty)) :: la2) /\
    validated (lb1 ++ (kb, set_volume bid (volume bid - qty)) :: lb2)
              (la1 ++ (ka, set_volume ask (volume ask - qty)) :: la2).
Proof.
  intros (Ub & Ua & Wb & Wa).
  destruct (step_unique bids asks Ub Ua)
    as [C|(ask & bid & la1 & ka & la2 & lb1 & kb & lb2 & S & Ea & Eb & E)];
    [left; exact C | right].
  exists ask, bid, la1, ka, la2, lb1, kb, lb2. cbv zeta. subst asks bids.
  pose proof (valid_inv _ _ (selected_valid _ _ _ _ S)) as (Va & Vb & _).
  pose proof (volumes_within_elt _ _ _ _ _ _ Wa) as Ra.
  pose proof (volumes_within_elt _ _ _ _ _ _ Wb) as Rb.
  cbv zeta in E. rewrite !sub_exact_to_long in E by lia.
  repeat split; try assumption; try lia.
  - rewrite (unique_tuples_frame _ _ (same_frame_update lb1 kb bid _ lb2)). exact Ub.
  - rewrite (unique_tuples_frame _ _ (same_frame_update la1 ka ask _ la2)). exact Ua.
  - apply volumes_within_update; [exact Wb | lia].
  - apply volumes_within_update; [exact Wa | lia].
Qed.

(** With non-negative volumes there are at most as many entries with volume
    left as the volumes sum to. *)
Lemma live_le_total hi bk :
  volumes_within 0 hi bk = true -> Z.of_nat (live bk) <= total_volume bk.
Proof.
  unfold live. induction bk as [|[k e] bk IH]; intros H; [cbn; lia|].
  cbn [volumes_within forallb snd] in H. apply andb_true_iff in H. destruct H as [H1 H2].
  apply andb_true_iff in H1. destruct H1 as [H1 _]. apply Z.leb_le in H1.
  specialize (IH H2). cbn [filter snd total_volume].
  destruct (Z.ltb_spec 0 (volume e)); cbn [List.length]; lia.
Qed.

(** On bounded books the loop returns within as many passes as there are
    entries with volume left, and one more. *)
Lemma loop_returns n : forall ts bids asks,
  bounded bids asks ->
  (live bids + live asks < n)%nat ->
  exists ts' bids' asks',
    (forall fuel, (n <= fuel)%nat ->
                  loop fuel ts bids asks = Returned (ts ++ ts') bids' asks') /\
    (List.length ts' <= live bids + live asks)%nat.
Proof.
  induction n as [|n IH]; intros ts bids asks B Hn; [lia|].
  destruct (step_bounded _ _ B)
    as [C|(ask & bid & la1 & ka & la2 & lb1 & kb & lb2 & va & vb &
           S & -> & -> & E & Z0 & B')].
  - exists [], bids, asks. split.
    + intros [|fuel] Hf; [lia|]. cbn [loop]. rewrite C, app_nil_r. reflexivity.
    + cbn. lia.
  - pose proof (valid_inv _ _ (selected_valid _ _ _ _ S)) as (Va & Vb & _).
    pose proof (live_update la1 ka ask la2 va Va) as La.
    pose proof (live_update lb1 kb bid lb2 vb Vb) as Lb.
    assert ((if (0 <? va)%Z then 0 else 1) + (if (0 <? vb)%Z then 0 else 1) >= 1)%nat
      by (destruct Z0; subst; cbn; destruct (0 <? _)%Z; lia).
    destruct (IH (ts ++ [trade_of ask bid]) _ _ B') as (ts' & b' & a' & Hrun & Hlen); [lia|].
    exists (trade_of ask bid :: ts'), b', a'. split.
    + intros [|fuel] Hf; [lia|]. cbn [loop]. rewrite E, Hrun by lia.
      rewrite <- app_assoc. reflexivity.
    + cbn [List.length]. lia.
Qed.

(** C3, as amended.  On books whose entries are unambiguous and whose
    volumes are non-negative and at most [SAFE_MAX = 2^63 - 513], the
    greatest [long] whose [double] is below [2^63], the function returns:
    there is a number of passes from which on every fuel gives the same
    returned trades and books, no conversion being undefined on the way;
    the trades are at most as many as the sum of all initial volumes; and
    every pass either finds nothing or goes on with the volume of the ask
    entry or of the bid entry its trade names strictly reduced. *)
Theorem terminates_on_validated_books bids asks :
  unique_tuples bids = true -> unique_tuples asks = true ->
  volumes_within 0 SAFE_MAX bids = true ->
  volumes_within 0 SAFE_MAX asks = true ->
  (exists n trades bids' asks',
     (forall fuel, (n <= fuel)%nat ->
                   find_best_arbitrage fuel bids asks = Returned trades bids' asks') /\
     Z.of_nat (List.length trades) <= total_volume bids + total_volume asks)
  /\
  (forall b a,
     reachable bids asks b a ->
     step b a = Stop \/
     exists t b' a',
       step b a = Next t b' a' /\
       (reduced_in a a' (buy_exchange t) (buy_fee t) (buy_price t) \/
        reduced_in b b' (sell_exchange t) (sell_fee t) (sell_price t))).
Proof.
  intros Ub Ua Wb Wa.
  pose proof (bounded_of_nonneg _ _ Ub Ua Wb Wa) as B.
  split.
  - destruct (loop_returns (S (live bids + live asks)) [] bids asks B)
      as (ts' & b' & a' & Hrun & Hlen); [lia|].
    exists (S (live bids + live asks)), ts', b', a'.
    split; [exact Hrun|].
    pose proof (live_le_total _ _ Wb). pose proof (live_le_total _ _ Wa). lia.
  - intros b a R.
    pose proof (reachable_bounded _ _ _ _ B R) as B'.
    destruct (step_bounded _ _ B')
      as [C|(ask & bid & la1 & ka & la2 & lb1 & kb & lb2 & va & vb &
             S & -> & -> & E & Z0 & _)]; [left; exact C | right].
    pose proof (valid_inv _ _ (selected_valid _ _ _ _ S)) as (Va & Vb & _).
    eexists. eexists. eexists. split; [exact E|].
    destruct Z0 as [-> | ->].
    + left. exists la1, ka, ask, la2, 0. repeat split. exact Va.
    + right. exists lb1, kb, bid, lb2, 0. repeat split. exact Vb.
Qed.

Lemma terminates_on_validated_books_witness :
  (exists n trades bids' asks',
     (forall fuel, (n <= fuel)%nat ->
                   find_best_arbitrage fuel sample_bids sample_asks
                   = Returned trades bids' asks') /\
     Z.of_nat (List.length trades) <= total_volume sample_bids + total_volume sample_asks)
  /\
  (step sample_bids sample_asks = Stop \/
   exists t b' a',
     step sample_bids sample_asks = Next t b' a' /\
     (reduced_in sample_asks a' (buy_exchange t) (buy_fee t) (buy_price t) \/
      reduced_in sample_bids b' (sell_exchange t) (sell_fee t) (sell_price t))).
Proof.
  pose proof (terminates_on_validated_books sample_bids sample_asks
                eq_refl eq_refl eq_refl eq_refl) as (A & B).
  split; [exact A | exact (B _ _ (reach_start _ _))].
Defined.

(* ================================================================= *)
(** ** Inputs on which the stated properties fail *)
(* ================================================================= *)

Lemma twin_step w w' :
  w <= 0 -> w' <= 0 ->
  step (twin_bids w') (twin_asks w) = Stop -> False.
Proof.
  intros Hw Hw' H.
  pose proof (step_stop _ _ H (mkEntry "ex1" 0 1 1) (mkEntry "ex2" 0 2 1)) as C.
  assert (T : (0 <? profit (mkEntry "ex1" 0 1 1) (mkEntry "ex2" 0 2 1))%float = true)
    by reflexivity.
  rewrite C in T; [discriminate | | reflexivity].
  cbn. auto.
Qed.

Lemma twin_next w w' t bids' asks' :
  w <= 0 -> w' <= 0 ->
  step (twin_bids w') (twin_asks w) = Next t bids' asks' ->
  exists v v', v <= 0 /\ v' <= 0 /\ bids' = twin_bids v' /\ asks' = twin_asks v.
Proof.
  intros Hw Hw' H.
  destruct (step_next _ _ _ _ _ H) as (ask & bid & -> & S & Ua & Ub).
  pose proof (valid_inv _ _ (selected_valid _ _ _ _ S)) as (Va & Vb & _).
  pose proof (selected_in _ _ _ _ S) as Hin.
  cbn in Hin.
  assert (Ea : ask = mkEntry "ex1" 0 1 1)
    by (destruct Hin as [E|[E|[E|[E|[]]]]]; inversion E; subst; cbn in Va, Vb; try lia;
        reflexivity).
  assert (Eb : bid = mkEntry "ex2" 0 2 1)
    by (destruct Hin as [E|[E|[E|[E|[]]]]]; inversion E; subst; cbn in Va, Vb; try lia;
        reflexivity).
  subst ask bid. cbn [volume exchange fee price] in Ua, Ub.
  change (Z.min 1 1) with 1 in Ua, Ub.
  unfold twin_asks in Ua. unfold twin_bids in Ub. cbn [update_volume] in Ua, Ub.
  cbn [exchange fee price volume] in Ua, Ub.
  change (("ex1" =? "ex1")%string && (0 =? 0)%float && (1 =? 1)%float) with true in Ua.
  change (("ex2" =? "ex2")%string && (0 =? 0)%float && (2 =? 2)%float) with true in Ub.
  cbv iota in Ua, Ub.
  destruct (to_long (of_long w - of_long 1)%float) as [v|] eqn:Tv; [|discriminate].
  destruct (to_long (of_long w' - of_long 1)%float) as [v'|] eqn:Tv'; [|discriminate].
  inversion Ua; inversion Ub; subst. exists v, v'.
  split; [exact (sub_nonpos_to_long w 1 v Hw ltac:(lia) Tv)|].
  split; [exact (sub_nonpos_to_long w' 1 v' Hw' ltac:(lia) Tv')|].
  split; reflexivity.
Qed.

Lemma twin_never_returns fuel : forall ts w w',
  w <= 0 -> w' <= 0 ->
  forall trades bids' asks',
    loop fuel ts (twin_bids w') (twin_asks w) <> Returned trades bids' asks'.
Proof.
  induction fuel as [|fuel IH]; intros ts w w' Hw Hw' trades b a; cbn [loop];
    [discriminate|].
  destruct (step (twin_bids w') (twin_asks w)) as [|t|t b1 a1] eqn:E.
  - destruct (twin_step _ _ Hw Hw' E).
  - discriminate.
  - destruct (twin_next _ _ _ _ _ Hw Hw' E) as (v & v' & Hv & Hv' & -> & ->).
    apply IH; assumption.
Qed.

(** C3, as stated, fails.  (1) With two indistinguishable asks and two
    indistinguishable bids, the first of each exhausted, all volumes 0 or 1:
    every pass selects the pair of the second ones and decrements the first
    ones, so no amount of fuel makes the function return.  (2) With an ask
    of volume [SAFE_MAX + 1 = 2^63 - 512], or of volume [LONG_MAX], and a
    bid of volume 1, the decrement of the ask has no defined result in the
    first pass: the [double] of the volume is [2^63], and so is the
    difference.  (3) With a negative volume in the books the function
    returns one trade, more than the sum of all initial volumes. *)
Lemma termination_bound_counterexample :
  (forall fuel trades bids' asks',
     find_best_arbitrage fuel (twin_bids 0) (twin_asks 0) <> Returned trades bids' asks')
  /\
  (forall fuel, exists t, find_best_arbitrage (S fuel) unit_bids edge_asks = Undefined [t])
  /\
  (forall fuel, exists t, find_best_arbitrage (S fuel) unit_bids huge_asks = Undefined [t])
  /\
  (exists t bids' asks',
     (forall fuel, find_best_arbitrage (S (S fuel)) short_bids short_asks
                   = Returned [t] bids' asks') /\
     total_volume short_bids + total_volume short_asks < Z.of_nat (List.length [t])).
Proof.
  split; [|split; [|split]].
  - intros fuel. apply twin_never_returns; lia.
  - intros fuel. eexists. unfold find_best_arbitrage. cbn [loop].
    assert (E : step unit_bids edge_asks
                = Fault (trade_of (mkEntry "ex1" 0 1 (SAFE_MAX + 1)) (mkEntry "ex2" 0 2 1)))
      by (vm_compute; reflexivity).
    rewrite E. reflexivity.
  - intros fuel. eexists. unfold find_best_arbitrage. cbn [loop].
    assert (E : step unit_bids huge_asks
                = Fault (trade_of (mkEntry "ex1" 0 1 LONG_MAX) (mkEntry "ex2" 0 2 1)))
      by (vm_compute; reflexivity).
    rewrite E. reflexivity.
  - eexists. eexists. eexists. split.
    + intros fuel. unfold find_best_arbitrage. cbn [loop].
      assert (E : step short_bids short_asks
                  = Next (trade_of (mkEntry "ex1" 0 1 5) (mkEntry "ex2" 0 2 5))
                         [ ("b", mkEntry "ex2" 0 2 0); ("c", mkEntry "ex3" 0 0.5 (-100)) ]%string%float
                         [ ("a", mkEntry "ex1" 0 1 0) ]%string%float)
        by (vm_compute; reflexivity).
      rewrite E.
      assert (E2 : step [ ("b", mkEntry "ex2" 0 2 0); ("c", mkEntry "ex3" 0 0.5 (-100)) ]%string%float
                        [ ("a", mkEntry "ex1" 0 1 0) ]%string%float = Stop)
        by (vm_compute; reflexivity).
      rewrite E2. reflexivity.
    + vm_compute. reflexivity.
Qed.

(** C4 fails on the code.  The books have unambiguous entries and
    non-negative volumes.  The first trade takes [2^53 + 1] from the bid of
    volume [2^53 + 3]; the decrement, made in [double], leaves 4 where 2
    remain, and the second trade takes those 4: the trades sell
    [2^53 + 5] into a bid that had [2^53 + 3], and its final volume 0 is
    not its original volume less what was consumed. *)
Theorem conservation_fails_above_2_53 :
  unique_tuples wide_bids = true /\ unique_tuples wide_asks = true /\
  volumes_within 0 LONG_MAX wide_bids = true /\
  volumes_within 0 LONG_MAX wide_asks = true /\
  exists t1 t2 asks',
    (forall fuel, find_best_arbitrage (3 + fuel) wide_bids wide_asks
                  = Returned [t1; t2] [ ("b"%string, set_volume wide_bid 0) ] asks') /\
    trade_volume t1 = 2 ^ 53 + 1 /\ trade_volume t2 = 4 /\
    sold [t1; t2] wide_bid = 2 ^ 53 + 5 /\
    volume wide_bid < sold [t1; t2] wide_bid /\
    volume (set_volume wide_bid 0) <> volume wide_bid - sold [t1; t2] wide_bid.
Proof.
  repeat (split; [reflexivity|]).
  eexists. eexists. eexists. split.
  - intros fuel. unfold find_best_arbitrage. cbn [Nat.add loop].
    assert (E1 : step wide_bids wide_asks
                 = Next (trade_of (mkEntry "ex1" 0 1 (2 ^ 53 + 1)) wide_bid)
                        [ ("b"%string, set_volume wide_bid 4) ]
                        [ ("a1", mkEntry "ex1" 0 1 0); ("a2", mkEntry "ex3" 0 1.5 10) ]%string%float)
      by (vm_compute; reflexivity).
    rewrite E1.
    assert (E2 : step [ ("b"%string, set_volume wide_bid 4) ]
                      [ ("a1", mkEntry "ex1" 0 1 0); ("a2", mkEntry "ex3" 0 1.5 10) ]%string%float
                 = Next (trade_of (mkEntry "ex3" 0 1.5 10) (set_volume wide_bid 4))
                        [ ("b"%string, set_volume wide_bid 0) ]
                        [ ("a1", mkEntry "ex1" 0 1 0); ("a2", mkEntry "ex3" 0 1.5 6) ]%string%float)
      by (vm_compute; reflexivity).
    rewrite E2.
    assert (E3 : step [ ("b"%string, set_volume wide_bid 0) ]
                      [ ("a1", mkEntry "ex1" 0 1 0); ("a2", mkEntry "ex3" 0 1.5 6) ]%string%float
                 = Stop)
      by (vm_compute; reflexivity).
    rewrite E3. reflexivity.
  - vm_compute. repeat split; discriminate.
Qed.

(** C8 fails on the code.  One trade of quantity 1 against a bid of volume
    [2^53 + 3]: the decrement, made in [double], stores [2^53 + 4], so the
    volume of the bid has gone up. *)
Theorem volume_increases_above_2_53 :
  exists t,
    (forall fuel, find_best_arbitrage (2 + fuel) odd_bids one_asks
                  = Returned [t] [ ("b"%string, set_volume odd_bid (2 ^ 53 + 4)) ]
                             [ ("a", mkEntry "ex1" 0 1 0) ]%string%float) /\
    trade_volume t = 1 /\
    volume odd_bid < volume (set_volume odd_bid (2 ^ 53 + 4)).
Proof.
  eexists. split; [|split].
  - intros fuel. unfold find_best_arbitrage. cbn [Nat.add loop].
    assert (E1 : step odd_bids one_asks
                 = Next (trade_of (mkEntry "ex1" 0 1 1) odd_bid)
                        [ ("b"%string, set_volume odd_bid (2 ^ 53 + 4)) ]
                        [ ("a", mkEntry "ex1" 0 1 0) ]%string%float)
      by (vm_compute; reflexivity).
    rewrite E1.
    assert (E2 : step [ ("b"%string, set_volume odd_bid (2 ^ 53 + 4)) ]
                      [ ("a", mkEntry "ex1" 0 1 0) ]%string%float = Stop)
      by (vm_compute; reflexivity).
    rewrite E2. reflexivity.
  - reflexivity.
  - vm_compute. reflexivity.
Qed.

(* ================================================================= *)
(** ** What holds of the volumes on validated books *)
(* ================================================================= *)

Lemma feqb_sym x y : (x =? y)%float = (y =? x)%float.
Proof.
  destruct (x =? y)%float eqn:E1, (y =? x)%float eqn:E2; try reflexivity.
  - apply eqb_iff in E1. assert (T : (y =? x)%float = true) by (apply eqb_iff; intuition).
    congruence.
  - apply eqb_iff in E2. assert (T : (x =? y)%float = true) by (apply eqb_iff; intuition).
    congruence.
Qed.

Lemma matches_sym e e' :
  matches e (exchange e') (fee e') (price e') = matches e' (exchange e) (fee e) (price e).
Proof.
  unfold matches.
  rewrite (String.eqb_sym (exchange e)), (feqb_sym (fee e)), (feqb_sym (price e)).
  reflexivity.
Qed.

Lemma matches_static e0 e exch f p :
  same_static e0 e -> matches e0 exch f p = matches e exch f p.
Proof. intros (S1 & S2 & S3). unfold matches. rewrite S1, S2, S3. reflexivity. Qed.

Lemma unique_tuples_after l1 : forall k e l2,
  unique_tuples (l1 ++ (k, e) :: l2) = true ->
  forall k' e', In (k', e') l2 -> matches e' (exchange e) (fee e) (price e) = false.
Proof.
  induction l1 as [|[k0 e0] l1 IH]; intros k e l2 H k' e' Hin.
  - cbn [app unique_tuples] in H. apply andb_true_iff in H. destruct H as [H _].
    rewrite forallb_forall in H. specialize (H (k', e') Hin). cbn [snd] in H.
    apply negb_true_iff in H. rewrite matches_sym. exact H.
  - cbn [app unique_tuples] in H. apply andb_true_iff in H.
    eapply IH; [exact (proj2 H) | exact Hin].
Qed.

Lemma bought_app ts t e :
  bought (ts ++ [t]) e =
  bought ts e
  + (if matches e (buy_exchange t) (buy_fee t) (buy_price t) then trade_volume t else 0).
Proof. induction ts as [|t0 ts IH]; cbn [app bought]; [lia | rewrite IH; lia]. Qed.

Lemma sold_app ts t e :
  sold (ts ++ [t]) e =
  sold ts e
  + (if matches e (sell_exchange t) (sell_fee t) (sell_price t) then trade_volume t else 0).
Proof. induction ts as [|t0 ts IH]; cbn [app sold]; [lia | rewrite IH; lia]. Qed.

(** From one state to the next: the entry of the selected tuple has given
    [qty], every other entry nothing. *)
Lemma conserved_step (c c' : Entry -> Z) exch f p qty bk0 l1 k e l2 :
  conserved c bk0 (l1 ++ (k, e) :: l2) ->
  unique_tuples (l1 ++ (k, e) :: l2) = true ->
  matches e exch f p = true ->
  exch = exchange e -> f = fee e -> p = price e ->
  (forall e0, c' e0 = c e0 + (if matches e0 exch f p then qty else 0)) ->
  0 <= qty <= volume e ->
  conserved c' bk0 (l1 ++ (k, set_volume e (volume e - qty)) :: l2).
Proof.
  intros C U M -> -> -> Hc Hq.
  pose proof (unique_tuples_split _ _ _ _ U) as N1.
  pose proof (unique_tuples_after _ _ _ _ U) as N2.
  unfold conserved in *.
  apply Forall2_app_inv_r in C. destruct C as (m1 & m2 & C1 & C2 & ->).
  inversion C2 as [|[k0 e0] ke m2' l2' (K & S & B & Vq) C3]; subst.
  cbn [fst snd] in *.
  apply Forall2_app; [|constructor].
  - clear - C1 N1 Hc. induction C1 as [|[k0 e0] [k1 e1] m l (K & S & B & Vq) _ IH];
      constructor.
    + cbn [fst snd] in *. rewrite Hc, (matches_static _ _ _ _ _ S).
      rewrite (N1 k1 e1 (or_introl eq_refl)).
      destruct S as (S1 & S2 & S3). repeat split; try assumption; lia.
    + apply IH. intros k' e' Hin. apply (N1 k' e'). right. exact Hin.
  - cbn [fst snd set_volume volume exchange fee price].
    rewrite Hc, (matches_static _ _ _ _ _ S), M.
    destruct S as (S1 & S2 & S3). repeat split; try assumption; lia.
  - clear - C3 N2 Hc. induction C3 as [|[k0 e0] [k1 e1] m l (K & S & B & Vq) _ IH];
      constructor.
    + cbn [fst snd] in *. rewrite Hc, (matches_static _ _ _ _ _ S).
      rewrite (N2 k1 e1 (or_introl eq_refl)).
      destruct S as (S1 & S2 & S3). repeat split; try assumption; lia.
    + apply IH. intros k' e' Hin. apply (N2 k' e'). right. exact Hin.
Qed.

Lemma conserved_start bk :
  volumes_within 0 (2 ^ 53 - 1) bk = true -> conserved (fun _ => 0) bk bk.
Proof.
  unfold conserved. induction bk as [|[k e] bk IH]; intros H; constructor.
  - cbn [volumes_within forallb snd] in H. apply andb_true_iff in H.
    destruct H as [H _]. apply andb_true_iff in H. destruct H as [H _].
    apply Z.leb_le in H. cbn [fst snd]. repeat split; lia.
  - apply IH. cbn [volumes_within forallb] in H. apply andb_true_iff in H. apply H.
Qed.

Lemma loop_conserved fuel : forall ts bids0 asks0 bids asks,
  validated bids asks ->
  conserved (bought ts) asks0 asks -> conserved (sold ts) bids0 bids ->
  forall trades bids' asks',
    loop fuel ts bids asks = Returned trades bids' asks' ->
    conserved (bought trades) asks0 asks' /\ conserved (sold trades) bids0 bids'.
Proof.
  induction fuel as [|fuel IH]; intros ts bids0 asks0 bids asks V Ca Cb trades b' a' H;
    cbn [loop] in H; [discriminate|].
  destruct (step_validated _ _ V)
    as [C|(ask & bid & la1 & ka & la2 & lb1 & kb & lb2 & S & -> & -> & Q & E & V')].
  - rewrite C in H. inversion H; subst. split; assumption.
  - cbv zeta in Q, E, V'. rewrite E in H.
    destruct V as (Ub & Ua & _ & _).
    destruct (selected_matches_itself _ _ _ (selected_above _ _ _ _ S)) as [Ma Mb].
    eapply IH; [exact V' | | | exact H].
    + eapply conserved_step; try eassumption; try reflexivity.
      * intros e0. rewrite bought_app. reflexivity.
      * cbn [trade_of trade_volume]. lia.
    + eapply conserved_step; try eassumption; try reflexivity.
      * intros e0. rewrite sold_app. reflexivity.
      * cbn [trade_of trade_volume]. lia.
Qed.

(** Below [2^53] the volumes are conserved: on books whose entries are
    unambiguous and whose volumes are non-negative and below [2^53], what
    the returned trades took from an entry is at most its original volume,
    and its final volume is the original one less that, never negative and
    never above the original. *)
Theorem conservation_below_2_53 bids asks fuel trades bids' asks' :
  unique_tuples bids = true -> unique_tuples asks = true ->
  volumes_within 0 (2 ^ 53 - 1) bids = true ->
  volumes_within 0 (2 ^ 53 - 1) asks = true ->
  find_best_arbitrage fuel bids asks = Returned trades bids' asks' ->
  conserved (bought trades) asks asks' /\ conserved (sold trades) bids bids'.
Proof.
  intros Ub Ua Wb Wa H.
  eapply (loop_conserved fuel []); [| | |exact H].
  - repeat split; assumption.
  - apply conserved_start. exact Wa.
  - apply conserved_start. exact Wb.
Qed.

Lemma conservation_below_2_53_witness :
  exists trades bids' asks',
    find_best_arbitrage 9 sample_bids sample_asks = Returned trades bids' asks' /\
    conserved (bought trades) sample_asks asks' /\
    conserved (sold trades) sample_bids bids'.
Proof.
  eexists. eexists. eexists. split; [vm_compute; reflexivity|].
  apply (conservation_below_2_53 sample_bids sample_asks 9); reflexivity.
Defined.

(** A run keeps the keys, their order, and every exchange, fee and price of
    both books, whatever the books are. *)
Lemma loop_frame fuel : forall ts bids asks,
  match loop fuel ts bids asks with
  | Returned _ bids' asks' | OutOfFuel _ bids' asks' =>
      same_frame bids bids' /\ same_frame asks asks'
  | Undefined _ => True
  end.
Proof.
  induction fuel as [|fuel IH]; intros ts bids asks; cbn [loop].
  - split; apply same_frame_refl.
  - destruct (step bids asks) as [|t|t b1 a1] eqn:E.
    + split; apply same_frame_refl.
    + exact I.
    + destruct (step_next _ _ _ _ _ E) as (ask & bid & _ & _ & Ua & Ub).
      apply update_volume_frame in Ua, Ub.
      specialize (IH (ts ++ [t]) b1 a1).
      destruct (loop fuel (ts ++ [t]) b1 a1); try exact I;
        destruct IH as [Hb Ha]; split; eapply same_frame_trans; eassumption.
Qed.

(** Every run keeps the keys of both books, in their order, and the
    exchange, fee and price of every entry: whatever the input, only
    volumes change. *)
Theorem run_keeps_frame fuel bids asks :
  match find_best_arbitrage fuel bids asks with
  | Returned _ bids' asks' | OutOfFuel _ bids' asks' =>
      same_frame bids bids' /\ same_frame asks asks'
  | Undefined _ => True
  end.
Proof. apply loop_frame. Qed.

(* ================================================================= *)
(** ** More on [update_volume] *)
(* ================================================================= *)

Lemma update_volume_absent bk exch f p q :
  (forall k e, In (k, e) bk -> matches e exch f p = false) ->
  update_volume bk exch f p q = Some bk.
Proof.
  induction bk as [|[k e] bk IH]; intros H; cbn [update_volume]; [reflexivity|].
  pose proof (H k e (or_introl eq_refl)) as M. unfold matches in M. rewrite M.
  rewrite IH; [reflexivity|]. intros k' e' Hin. apply (H k' e'). right. exact Hin.
Qed.

Lemma update_volume_first l1 : forall k e l2 exch f p q,
  (forall k' e', In (k', e') l1 -> matches e' exch f p = false) ->
  matches e exch f p = true ->
  update_volume (l1 ++ (k, e) :: l2) exch f p q =
  match to_long (of_long (volume e) - q)%float with
  | Some v => Some (l1 ++ (k, set_volume e v) :: l2)
  | None => None
  end.
Proof.
  induction l1 as [|[k0 e0] l1 IH]; intros k e l2 exch f p q N M; cbn [app update_volume].
  - unfold matches in M. rewrite M. reflexivity.
  - pose proof (N k0 e0 (or_introl eq_refl)) as M0. unfold matches in M0. rewrite M0.
    rewrite IH; [| intros k' e' Hin; apply (N k' e'); right; exact Hin | exact M].
    destruct (to_long (of_long (volume e) - q)%float); reflexivity.
Qed.

(** [update_volume] writes at most one entry, the first one whose exchange,
    fee and price compare equal to the ones it is given, and its volume
    only; when no entry compares equal it leaves the book as it is, without
    any error; and it has no defined result exactly when the new volume of
    that first entry has none. *)
Theorem update_volume_first_match_only exch f p q :
  (forall bk,
     (forall k e, In (k, e) bk -> matches e exch f p = false) ->
     update_volume bk exch f p q = Some bk)
  /\
  (forall l1 k e l2,
     (forall k' e', In (k', e') l1 -> matches e' exch f p = false) ->
     matches e exch f p = true ->
     update_volume (l1 ++ (k, e) :: l2) exch f p q =
     match to_long (of_long (volume e) - q)%float with
     | Some v => Some (l1 ++ (k, set_volume e v) :: l2)
     | None => None
     end).
Proof.
  split.
  - intros bk. apply update_volume_absent.
  - intros l1 k e l2. apply update_volume_first.
Qed.

(* ================================================================= *)
(** ** The books a run returns *)
(* ================================================================= *)

Lemma loop_returned_stop fuel : forall ts bids asks trades bids' asks',
  loop fuel ts bids asks = Returned trades bids' asks' -> step bids' asks' = Stop.
Proof.
  induction fuel as [|fuel IH]; intros ts bids asks trades b' a' H; cbn [loop] in H;
    [discriminate|].
  destruct (step bids asks) as [|t|t b1 a1] eqn:E.
  - inversion H; subst. exact E.
  - discriminate.
  - eapply IH. exact H.
Qed.

Lemma no_profit_existsb asks bids :
  (forall x y, In (x, y) (pairs asks bids) -> valid x y = true ->
               (0 <? profit x y)%float = false) ->
  existsb (fun ab => profitable (fst ab) (snd ab)) (pairs asks bids) = false.
Proof.
  intros H.
  destruct (existsb _ (pairs asks bids)) eqn:E; [|reflexivity].
  apply existsb_exists in E. destruct E as ([x y] & Hin & P).
  unfold profitable in P. cbn [fst snd] in P. apply andb_true_iff in P.
  destruct P as [V L]. rewrite (H x y Hin V) in L. discriminate.
Qed.

(** When [find_best_arbitrage] returns, the books it leaves hold no
    profitable pair any more (positive volumes, differing venues, profit
    above 0), so that calling it again on them returns at once, with no
    trade and the books unchanged. *)
Theorem returned_books_are_exhausted fuel bids asks trades bids' asks' :
  find_best_arbitrage fuel bids asks = Returned trades bids' asks' ->
  existsb (fun ab => profitable (fst ab) (snd ab)) (pairs asks' bids') = false /\
  forall fuel', find_best_arbitrage (S fuel') bids' asks' = Returned [] bids' asks'.
Proof.
  intros H. apply loop_returned_stop in H. split.
  - apply no_profit_existsb. apply step_stop. exact H.
  - intros fuel'. unfold find_best_arbitrage. cbn [loop]. rewrite H. reflexivity.
Qed.

Lemma returned_books_are_exhausted_witness :
  exists trades bids' asks',
    find_best_arbitrage 9 sample_bids sample_asks = Returned trades bids' asks' /\
    existsb (fun ab => profitable (fst ab) (snd ab)) (pairs asks' bids') = false /\
    forall fuel', find_best_arbitrage (S fuel') bids' asks' = Returned [] bids' asks'.
Proof.
  eexists. eexists. eexists. split; [vm_compute; reflexivity|].
  eapply (returned_books_are_exhausted 9 sample_bids sample_asks). vm_compute. reflexivity.
Defined.

(* ================================================================= *)
(** ** Where the trades come from *)
(* ================================================================= *)

Lemma same_frame_quotes bk0 bk k e :
  same_frame bk0 bk -> In (k, e) bk -> quotes bk0 (exchange e) (fee e) (price e).
Proof.
  intros F Hin.
  destruct (Forall2_In_r _ _ _ F _ Hin) as ([k0 e0] & Hin0 & _ & S1 & S2 & S3).
  cbn [snd] in *. exists k0, e0. repeat split; [exact Hin0 | | |]; congruence.
Qed.

(** No trade is made up: whatever the books, every trade of a run buys at
    the exchange, fee and price of an entry of the asks the function was
    called on, and sells at those of an entry of the bids. *)
Theorem trades_quote_the_books fuel bids asks :
  Forall (fun t => quotes asks (buy_exchange t) (buy_fee t) (buy_price t) /\
                   quotes bids (sell_exchange t) (sell_fee t) (sell_price t))
         (trades_of (find_best_arbitrage fuel bids asks)).
Proof.
  set (R := fun t => quotes asks (buy_exchange t) (buy_fee t) (buy_price t) /\
                     quotes bids (sell_exchange t) (sell_fee t) (sell_price t)).
  assert (Hsel : forall b a ask bid,
             same_frame bids b -> same_frame asks a ->
             selected (pairs a b) 0%float ask bid -> R (trade_of ask bid)).
  { intros b a ask bid Fb Fa S. apply selected_in in S. apply in_pairs in S.
    destruct S as [[ka Ha] [kb Hb]]. split; cbn [trade_of buy_exchange buy_fee buy_price
                                                  sell_exchange sell_fee sell_price].
    - eapply same_frame_quotes; eassumption.
    - eapply same_frame_quotes; eassumption. }
  unfold find_best_arbitrage.
  apply (loop_ind (fun ts b a => same_frame bids b /\ same_frame asks a /\ Forall R ts)
                  (Forall R)).
  - intros ts b a (_ & _ & H). exact H.
  - intros ts b a ask bid (Fb & Fa & H) S. apply Forall_app. split; [exact H|].
    constructor; [|constructor]. eapply Hsel; eassumption.
  - intros ts b a ask bid b' a' (Fb & Fa & H) S E.
    destruct (step_next _ _ _ _ _ E) as (ask' & bid' & _ & _ & Ua & Ub).
    apply update_volume_frame in Ua, Ub.
    split; [eapply same_frame_trans; eassumption|].
    split; [eapply same_frame_trans; eassumption|].
    apply Forall_app. split; [exact H|]. constructor; [|constructor].
    eapply Hsel; eassumption.
  - split; [apply same_frame_refl|]. split; [apply same_frame_refl|]. constructor.
Qed.

(* ================================================================= *)
(** ** The scan and the iteration order *)
(* ================================================================= *)

Lemma pairs_perm asks bids asks' bids' x y :
  Permutation asks asks' -> Permutation bids bids' ->
  In (x, y) (pairs asks bids) -> In (x, y) (pairs asks' bids').
Proof.
  intros Pa Pb H. apply in_pairs in H. apply in_pairs.
  destruct H as [[ka Ha] [kb Hb]]. split.
  - exists ka. eapply Permutation_in; eassumption.
  - exists kb. eapply Permutation_in; eassumption.
Qed.

(** The iteration order of the two maps decides which of several best
    pairs a scan takes, never how good the pair is: on the same entries
    taken in another order a scan finds a trade exactly when it did, and
    the profit per unit of the trade is the same [double]. *)
Theorem scan_profit_is_order_independent bids asks bids' asks' :
  Permutation bids bids' -> Permutation asks asks' ->
  snd (best_arbitrage bids asks) = snd (best_arbitrage bids' asks') /\
  option_map profit_per_unit (fst (best_arbitrage bids asks))
  = option_map profit_per_unit (fst (best_arbitrage bids' asks')).
Proof.
  intros Pb Pa.
  destruct (best_arbitrage_spec bids asks) as [[E N]|(ask & bid & E & S)];
    destruct (best_arbitrage_spec bids' asks') as [[E' N']|(ask' & bid' & E' & S')];
    rewrite E, E'; cbn [fst snd option_map trade_of profit_per_unit].
  - split; reflexivity.
  - exfalso.
    pose proof (N ask' bid' (pairs_perm _ _ _ _ _ _ (Permutation_sym Pa) (Permutation_sym Pb)
                               (selected_in _ _ _ _ S')) (selected_valid _ _ _ _ S')) as C.
    rewrite (selected_above _ _ _ _ S') in C. discriminate.
  - exfalso.
    pose proof (N' ask bid (pairs_perm _ _ _ _ _ _ Pa Pb (selected_in _ _ _ _ S))
                   (selected_valid _ _ _ _ S)) as C.
    rewrite (selected_above _ _ _ _ S) in C. discriminate.
  - assert (Q : profit ask bid = profit ask' bid').
    { apply pos_eq.
      - eapply selected_above; eassumption.
      - eapply selected_above; eassumption.
      - apply (selected_max _ _ _ _ S);
          [ exact (pairs_perm _ _ _ _ _ _ (Permutation_sym Pa) (Permutation_sym Pb)
                              (selected_in _ _ _ _ S'))
          | eapply selected_valid; eassumption ].
      - apply (selected_max _ _ _ _ S');
          [ exact (pairs_perm _ _ _ _ _ _ Pa Pb (selected_in _ _ _ _ S))
          | eapply selected_valid; eassumption ]. }
    rewrite Q. split; reflexivity.
Qed.

Lemma scan_profit_is_order_independent_witness :
  snd (best_arbitrage sample_bids sample_asks)
  = snd (best_arbitrage (rev sample_bids) (rev sample_asks)) /\
  option_map profit_per_unit (fst (best_arbitrage sample_bids sample_asks))
  = option_map profit_per_unit (fst (best_arbitrage (rev sample_bids) (rev sample_asks))).
Proof.
  apply (scan_profit_is_order_independent sample_bids sample_asks); apply Permutation_rev.
Defined.

(* ================================================================= *)
(** ** Runs on books of [long] volumes *)
(* ================================================================= *)

Lemma loop_stops fuel : forall ts bids asks,
  well_formed bids asks ->
  (live bids + live asks < fuel)%nat ->
  match loop fuel ts bids asks with
  | OutOfFuel _ _ _ => False
  | _ => True
  end.
Proof.
  induction fuel as [|fuel IH]; intros ts bids asks W L; [lia|]. cbn [loop].
  destruct (step bids asks) as [|t|t bids' asks'] eqn:E; try exact I.
  destruct (step_next_well_formed _ _ _ _ _ W E)
    as (ask & bid & la1 & ka & la2 & lb1 & kb & lb2 & va & vb &
        -> & S & -> & -> & -> & -> & _ & _ & Z0 & W').
  pose proof (valid_inv _ _ (selected_valid _ _ _ _ S)) as (Va & Vb & _).
  pose proof (live_update la1 ka ask la2 va Va) as La.
  pose proof (live_update lb1 kb bid lb2 vb Vb) as Lb.
  apply IH; [exact W'|].
  assert ((if (0 <? va)%Z then 0 else 1) + (if (0 <? vb)%Z then 0 else 1) >= 1)%nat
    by (destruct Z0; subst; cbn; destruct (0 <? _)%Z; lia).
  lia.
Qed.

(** On books whose entries are unambiguous and whose volumes are [long]s,
    the loop makes at most as many passes as there are entries with volume
    left, and one more to find nothing: with that much fuel a run has
    returned, or has met a conversion without a defined result. *)
Theorem stops_within_live_entries bids asks fuel :
  unique_tuples bids = true -> unique_tuples asks = true ->
  volumes_within LONG_MIN LONG_MAX bids = true ->
  volumes_within LONG_MIN LONG_MAX asks = true ->
  (live bids + live asks < fuel)%nat ->
  match find_best_arbitrage fuel bids asks with
  | OutOfFuel _ _ _ => False
  | _ => True
  end.
Proof.
  intros Ub Ua Wb Wa L. apply loop_stops; [|exact L]. repeat split; assumption.
Qed.

Lemma stops_within_live_entries_witness :
  match find_best_arbitrage 11 sample_bids sample_asks with
  | OutOfFuel _ _ _ => False
  | _ => True
  end.
Proof.
  apply (stops_within_live_entries sample_bids sample_asks 11); try reflexivity.
  vm_compute. lia.
Defined.

Lemma traded_app ts t : traded (ts ++ [t]) = traded ts + trade_volume t.
Proof. induction ts as [|t0 ts IH]; cbn [app traded]; [lia | rewrite IH; lia]. Qed.

Lemma loop_traded fuel : forall ts bids asks trades bids' asks',
  validated bids asks ->
  loop fuel ts bids asks = Returned trades bids' asks' ->
  total_volume asks' = total_volume asks - (traded trades - traded ts) /\
  total_volume bids' = total_volume bids - (traded trades - traded ts).
Proof.
  induction fuel as [|fuel IH]; intros ts bids asks trades b' a' V H; cbn [loop] in H;
    [discriminate|].
  destruct (step_validated _ _ V)
    as [C|(ask & bid & la1 & ka & la2 & lb1 & kb & lb2 & S & -> & -> & Q & E & V')].
  - rewrite C in H. inversion H; subst. lia.
  - cbv zeta in Q, E, V'. rewrite E in H.
    destruct (IH _ _ _ _ _ _ V' H) as [Ta Tb].
    rewrite traded_app in Ta, Tb. cbn [trade_of trade_volume] in Ta, Tb.
    rewrite !total_volume_elt in *. cbn [set_volume volume] in Ta, Tb. lia.
Qed.

(** What is bought is sold: on books whose entries are unambiguous and whose
    volumes are non-negative and below [2^53], the volumes of the asks go
    down, in total, by the sum of the traded volumes, and so do the volumes
    of the bids. *)
Theorem books_lose_the_traded_volume bids asks fuel trades bids' asks' :
  unique_tuples bids = true -> unique_tuples asks = true ->
  volumes_within 0 (2 ^ 53 - 1) bids = true ->
  volumes_within 0 (2 ^ 53 - 1) asks = true ->
  find_best_arbitrage fuel bids asks = Returned trades bids' asks' ->
  total_volume asks' = total_volume asks - traded trades /\
  total_volume bids' = total_volume bids - traded trades.
Proof.
  intros Ub Ua Wb Wa H.
  assert (V : validated bids asks) by (repeat split; assumption).
  destruct (loop_traded fuel [] bids asks trades bids' asks' V H) as [Ta Tb].
  cbn [traded] in Ta, Tb. lia.
Qed.

Lemma books_lose_the_traded_volume_witness :
  exists trades bids' asks',
    find_best_arbitrage 9 sample_bids sample_asks = Returned trades bids' asks' /\
    total_volume asks' = total_volume sample_asks - traded trades /\
    total_volume bids' = total_volume sample_bids - traded trades.
Proof.
  eexists. eexists. eexists. split; [vm_compute; reflexivity|].
  apply (books_lose_the_traded_volume sample_bids sample_asks 9); reflexivity.
Defined.

(* ================================================================= *)
(** ** The profits [print_trades] adds up *)
(* ================================================================= *)

Lemma volumes_within_in lo hi bk k e :
  volumes_within lo hi bk = true -> In (k, e) bk -> lo <= volume e <= hi.
Proof.
  intros H Hin. unfold volumes_within in H. rewrite forallb_forall in H.
  specialize (H (k, e) Hin). cbn [snd] in H. apply andb_true_iff in H. lia.
Qed.

Lemma update_volume_within bk exch f p q bk' :
  volumes_within LONG_MIN LONG_MAX bk = true ->
  update_volume bk exch f p q = Some bk' ->
  volumes_within LONG_MIN LONG_MAX bk' = true.
Proof.
  intros W U.
  destruct (update_volume_spec _ _ _ _ _ _ U)
    as [[-> _]|(l1 & k & e & l2 & v & -> & -> & _ & _ & T)]; [exact W|].
  eapply volumes_within_update; [exact W | eapply to_long_range; exact T].
Qed.

(** The net profit of a pair the scan can select, when the traded volume is
    a [long]: zero, a positive value or [+infinity]. *)
Lemma net_profit_nonneg ask bid :
  valid ask bid = true -> (0 <? profit ask bid)%float = true ->
  volume ask <= LONG_MAX -> volume bid <= LONG_MAX ->
  SFnonneg (Prim2SF (net_profit (trade_of ask bid))).
Proof.
  intros V P La Lb. destruct (valid_inv _ _ V) as (Va & Vb & _).
  cbn [trade_of net_profit]. rewrite FloatAxioms.mul_spec.
  destruct (of_long_pos (Z.min (volume ask) (volume bid)) ltac:(lia)) as (m & e & ->).
  destruct (pos_cases _ P) as [(m' & e' & ->)| ->].
  - apply SFmul_nonneg; cbn [SFnonneg]; try exact I; discriminate.
  - apply SFmul_nonneg; cbn [SFnonneg]; try exact I; discriminate.
Qed.

Lemma total_nonneg ts : forall acc,
  SFnonneg (Prim2SF acc) ->
  Forall (fun t => SFnonneg (Prim2SF (net_profit t))) ts ->
  SFnonneg (Prim2SF (fold_left (fun total t => (total + net_profit t)%float) ts acc)).
Proof.
  induction ts as [|t ts IH]; intros acc A F; cbn [fold_left]; [exact A|].
  inversion F; subst. apply IH; [|assumption].
  rewrite FloatAxioms.add_spec. apply SFadd_nonneg; assumption.
Qed.

(** On books whose volumes are [long]s, no net profit of a trade is negative
    or NaN, and the total [print_trades] adds up and prints is not negative
    and not NaN either. *)
Theorem total_profit_is_not_negative fuel bids asks :
  volumes_within LONG_MIN LONG_MAX bids = true ->
  volumes_within LONG_MIN LONG_MAX asks = true ->
  Forall (fun t => (0 <=? net_profit t)%float = true)
         (trades_of (find_best_arbitrage fuel bids asks)) /\
  (0 <=? total_profit (trades_of (find_best_arbitrage fuel bids asks)))%float = true.
Proof.
  intros Wb Wa.
  set (R := fun t => SFnonneg (Prim2SF (net_profit t))).
  assert (Hsel : forall b a ask bid,
             volumes_within LONG_MIN LONG_MAX b = true ->
             volumes_within LONG_MIN LONG_MAX a = true ->
             selected (pairs a b) 0%float ask bid -> R (trade_of ask bid)).
  { intros b a ask bid Hb Ha S. pose proof (selected_in _ _ _ _ S) as Hin.
    apply in_pairs in Hin. destruct Hin as [[ka Ia] [kb Ib]].
    pose proof (volumes_within_in _ _ _ _ _ Ha Ia).
    pose proof (volumes_within_in _ _ _ _ _ Hb Ib).
    apply net_profit_nonneg;
      [eapply selected_valid; eassumption | eapply selected_above; eassumption | lia | lia]. }
  assert (H : Forall R (trades_of (find_best_arbitrage fuel bids asks))).
  { unfold find_best_arbitrage.
    apply (loop_ind (fun ts b a => volumes_within LONG_MIN LONG_MAX b = true /\
                                   volumes_within LONG_MIN LONG_MAX a = true /\
                                   Forall R ts)
                    (Forall R)).
    - intros ts b a (_ & _ & H). exact H.
    - intros ts b a ask bid (Hb & Ha & H) S. apply Forall_app. split; [exact H|].
      constructor; [|constructor]. exact (Hsel b a ask bid Hb Ha S).
    - intros ts b a ask bid b' a' (Hb & Ha & H) S E.
      destruct (step_next _ _ _ _ _ E) as (ask' & bid' & _ & _ & Ua & Ub).
      split; [exact (update_volume_within _ _ _ _ _ _ Hb Ub)|].
      split; [exact (update_volume_within _ _ _ _ _ _ Ha Ua)|].
      apply Forall_app. split; [exact H|]. constructor; [|constructor].
      exact (Hsel b a ask bid Hb Ha S).
    - split; [exact Wb|]. split; [exact Wa|]. constructor. }
  split.
  - eapply Forall_impl; [|exact H]. intros t Ht. apply leb_zero_nonneg. exact Ht.
  - apply leb_zero_nonneg. unfold total_profit. apply total_nonneg; [exact I | exact H].
Qed.

Lemma total_profit_is_not_negative_witness :
  Forall (fun t => (0 <=? net_profit t)%float = true)
         (trades_of (find_best_arbitrage 9 sample_bids sample_asks)) /\
  (0 <=? total_profit (trades_of (find_best_arbitrage 9 sample_bids sample_asks)))%float
  = true.
Proof.
  apply (total_profit_is_not_negative 9 sample_bids sample_asks); reflexivity.
Defined.

(* ================================================================= *)
(** ** [parse_key] *)
(* ================================================================= *)

Lemma find_from_none c s : forall i,
  ~ In c (chars s) -> find_from c s i = npos.
Proof.
  induction s as [|a s IH]; intros i H; cbn [find_from]; [reflexivity|].
  cbn [chars list_ascii_of_string] in H.
  destruct (Ascii.eqb a c) eqn:E.
  - apply Ascii.eqb_eq in E. destruct H. left. exact E.
  - apply IH. intros C. apply H. right. exact C.
Qed.

Lemma find_from_first c a : forall b i,
  ~ In c (chars a) ->
  find_from c (a ++ String c b) i = i + Z.of_nat (String.length a).
Proof.
  induction a as [|x a IH]; intros b i H; cbn [append find_from String.length].
  - rewrite Ascii.eqb_refl. lia.
  - cbn [chars list_ascii_of_string] in H.
    destruct (Ascii.eqb x c) eqn:E.
    + apply Ascii.eqb_eq in E. destruct H. left. exact E.
    + rewrite IH by (intros C; apply H; right; exact C). lia.
Qed.

(** A string has no [c], or splits at its first [c]. *)
Lemma first_split c s :
  ~ In c (chars s) \/ exists a b, s = (a ++ String c b)%string /\ ~ In c (chars a).
Proof.
  induction s as [|x s IH].
  - left. intros [].
  - destruct (Ascii.eqb x c) eqn:E.
    + apply Ascii.eqb_eq in E. subst x. right. exists EmptyString, s.
      split; [reflexivity | intros []].
    + apply Ascii.eqb_neq in E. destruct IH as [N|(a & b & -> & N)].
      * left. cbn [chars list_ascii_of_string]. intros [C|C]; [exact (E C) | exact (N C)].
      * right. exists (String x a), b. split; [reflexivity|].
        cbn [chars list_ascii_of_string]. intros [C|C]; [exact (E C) | exact (N C)].
Qed.

Lemma length_append a b :
  String.length (a ++ b) = (String.length a + String.length b)%nat.
Proof. induction a as [|x a IH]; cbn [append String.length]; [reflexivity | rewrite IH; reflexivity]. Qed.

Lemma substring_all s : substring 0 (String.length s) s = s.
Proof. induction s as [|x s IH]; cbn [String.length substring]; [reflexivity | rewrite IH; reflexivity]. Qed.

Lemma substring_prefix a s : substring 0 (String.length a) (a ++ s) = a.
Proof.
  induction a as [|x a IH]; cbn [String.length append substring].
  - destruct s; reflexivity.
  - rewrite IH. reflexivity.
Qed.

Lemma substring_suffix a s :
  substring (String.length a) (String.length s) (a ++ s) = s.
Proof.
  induction a as [|x a IH]; cbn [String.length append].
  - apply substring_all.
  - cbn [substring]. exact IH.
Qed.

Lemma substr_whole s :
  Z.of_nat (String.length s) < npos -> substr s 0 npos = Some s.
Proof.
  intros H. unfold substr. cbv zeta.
  destruct (Z.ltb_spec (Z.of_nat (String.length s)) 0); [lia|].
  rewrite Z.sub_0_r, Z.min_r by lia. rewrite Nat2Z.id. change (Z.to_nat 0) with 0%nat.
  rewrite substring_all. reflexivity.
Qed.

Lemma substr_prefix a s :
  substr (a ++ s) 0 (Z.of_nat (String.length a)) = Some a.
Proof.
  unfold substr. cbv zeta. rewrite length_append.
  destruct (Z.ltb_spec (Z.of_nat (String.length a + String.length s)) 0); [lia|].
  rewrite Z.min_l by lia. rewrite Nat2Z.id. change (Z.to_nat 0) with 0%nat.
  rewrite substring_prefix. reflexivity.
Qed.

Lemma substr_suffix a s :
  Z.of_nat (String.length (a ++ s)) < npos ->
  substr (a ++ s) (Z.of_nat (String.length a)) npos = Some s.
Proof.
  intros L. unfold substr. cbv zeta. rewrite length_append in *.
  destruct (Z.ltb_spec (Z.of_nat (String.length a + String.length s))
                       (Z.of_nat (String.length a))); [lia|].
  rewrite Z.min_r by lia. rewrite Nat2Z.id.
  replace (Z.to_nat (Z.of_nat (String.length a + String.length s)
                     - Z.of_nat (String.length a)))
    with (String.length s) by lia.
  rewrite substring_suffix. reflexivity.
Qed.

Lemma append_dash a c b : (a ++ String c b)%string = ((a ++ String c EmptyString) ++ b)%string.
Proof. induction a as [|x a IH]; cbn [append]; [reflexivity | rewrite IH; reflexivity]. Qed.

Lemma parse_key_dash stod exch text :
  Z.of_nat (String.length (exch ++ String "-" text)) < npos ->
  ~ In "-"%char (chars exch) ->
  parse_key stod (exch ++ String "-" text) = option_map (pair exch) (stod text).
Proof.
  intros L N. unfold parse_key, find. cbv zeta.
  rewrite find_from_first by exact N. rewrite Z.add_0_l.
  rewrite substr_prefix.
  assert (E : (Z.of_nat (String.length exch) + 1) mod 2 ^ 64
              = Z.of_nat (String.length (exch ++ String "-" EmptyString))).
  { rewrite length_append in *. cbn [String.length] in *. unfold npos in L.
    rewrite Z.mod_small; lia. }
  rewrite E. rewrite (append_dash exch "-" text) in *.
  rewrite substr_suffix by exact L. destruct (stod text); reflexivity.
Qed.

Lemma parse_key_no_dash stod key :
  Z.of_nat (String.length key) < npos ->
  ~ In "-"%char (chars key) ->
  parse_key stod key = option_map (pair key) (stod key).
Proof.
  intros L N. unfold parse_key, find. cbv zeta.
  rewrite find_from_none by exact N.
  change ((npos + 1) mod 2 ^ 64) with 0.
  rewrite substr_whole by exact L. destruct (stod key); reflexivity.
Qed.

(** [parse_key] splits a key at its first dash: when the key is an exchange
    name without a dash, a dash, and a fee text, the result is that name
    and what [std::stod] reads from the fee text, further dashes included;
    and [parse_key] throws exactly when [std::stod] throws on the text. *)
Theorem parse_key_splits_at_first_dash stod exch text :
  Z.of_nat (String.length (exch ++ String "-" text)) < npos ->
  ~ In "-"%char (chars exch) ->
  parse_key stod (exch ++ String "-" text) = option_map (pair exch) (stod text).
Proof. apply parse_key_dash. Qed.

Lemma parse_key_splits_at_first_dash_witness :
  parse_key stod_of_main ("ex1" ++ String "-" "0.00024")
  = option_map (pair "ex1"%string) (stod_of_main "0.00024").
Proof.
  apply (parse_key_splits_at_first_dash stod_of_main "ex1" "0.00024").
  - vm_compute. reflexivity.
  - vm_compute. intros [H|[H|[H|[]]]]; discriminate H.
Defined.

(** A key without a dash is not refused: [find] gives [npos], [npos + 1]
    wraps to 0, and the whole key is both the exchange name and the text
    handed to [std::stod]. *)
Theorem parse_key_without_dash stod key :
  Z.of_nat (String.length key) < npos ->
  ~ In "-"%char (chars key) ->
  parse_key stod key = option_map (pair key) (stod key).
Proof. apply parse_key_no_dash. Qed.

Lemma parse_key_without_dash_witness :
  parse_key stod_of_main "0" = option_map (pair "0"%string) (stod_of_main "0").
Proof.
  apply (parse_key_without_dash stod_of_main "0").
  - vm_compute. reflexivity.
  - vm_compute. intros [H|[]]. discriminate H.
Defined.

(** The two [substr] calls of [parse_key] are always in range, so the only
    exception that leaves [parse_key] is one of [std::stod]: on every key
    [parse_key] does what [std::stod] does on one text, the part of the key
    after its first dash (the part before it, free of dashes, being the
    exchange name), or the whole key when the key has no dash. *)
Theorem parse_key_throws_only_in_stod stod key :
  Z.of_nat (String.length key) < npos ->
  exists exch text,
    parse_key stod key = option_map (pair exch) (stod text) /\
    ((key = (exch ++ String "-" text)%string /\ ~ In "-"%char (chars exch)) \/
     (key = exch /\ key = text /\ ~ In "-"%char (chars key))).
Proof.
  intros L. destruct (first_split "-" key) as [N|(a & b & -> & N)].
  - exists key, key. split; [apply parse_key_no_dash; assumption|].
    right. repeat split. exact N.
  - exists a, b. split; [apply parse_key_dash; assumption|].
    left. split; [reflexivity | exact N].
Qed.

Lemma parse_key_throws_only_in_stod_witness :
  exists exch text,
    parse_key stod_of_main "ex5-0" = option_map (pair exch) (stod_of_main text) /\
    (("ex5-0"%string = (exch ++ String "-" text)%string /\ ~ In "-"%char (chars exch)) \/
     ("ex5-0"%string = exch /\ "ex5-0"%string = text /\ ~ In "-"%char (chars "ex5-0"))).
Proof.
  apply (parse_key_throws_only_in_stod stod_of_main "ex5-0"). vm_compute. reflexivity.
Defined.

(* ================================================================= *)
(** ** [build_entries] *)
(* ================================================================= *)

Lemma assign_fresh entries key e :
  ~ In key (map fst entries) -> assign entries key e = entries ++ [(key, e)].
Proof.
  induction entries as [|[k e0] entries IH]; intros H; cbn [assign app]; [reflexivity|].
  cbn [map fst] in H.
  destruct (String.eqb_spec k key) as [->|Ne].
  - destruct H. left. reflexivity.
  - rewrite IH; [reflexivity|]. intros C. apply H. right. exact C.
Qed.

Lemma build_from_fresh stod raw : forall entries res,
  NoDup (map fst raw) ->
  (forall k, In k (map fst raw) -> ~ In k (map fst entries)) ->
  build_from stod raw entries = Some res ->
  exists es, res = entries ++ es /\ Forall2 (built stod) raw es.
Proof.
  induction raw as [|[key [p v]] raw IH]; intros entries res D Fr H; cbn [build_from] in H.
  - inversion H; subst. exists []. split; [rewrite app_nil_r; reflexivity | constructor].
  - destruct (parse_key stod key) as [[exch f]|] eqn:P; [|discriminate].
    cbn [map fst] in D, Fr. inversion D as [|? ? Nk D']; subst.
    rewrite assign_fresh in H by (apply Fr; left; reflexivity).
    assert (Fr' : forall k, In k (map fst raw) ->
                            ~ In k (map fst (entries ++ [(key, mkEntry exch f p v)]))).
    { intros k Hk C. rewrite map_app in C. apply in_app_or in C.
      destruct C as [C|[C|[]]]; [exact (Fr k (or_intror Hk) C)|].
      cbn [fst] in C. subst k. exact (Nk Hk). }
    destruct (IH _ _ D' Fr' H)
      as (es & -> & F).
    exists ((key, mkEntry exch f p v) :: es). split; [rewrite <- app_assoc; reflexivity|].
    constructor; [|exact F]. split; [reflexivity|]. exists exch, f. split; [exact P | reflexivity].
Qed.

Lemma built_keys stod raw es : Forall2 (built stod) raw es -> map fst es = map fst raw.
Proof.
  induction 1 as [|r ke raw es (K & _) _ IH]; cbn [map]; [reflexivity|].
  rewrite K, IH. reflexivity.
Qed.

Lemma lookup_absent entries key : ~ In key (map fst entries) -> lookup entries key = None.
Proof.
  induction entries as [|[k e] entries IH]; intros H; cbn [lookup]; [reflexivity|].
  cbn [map fst] in H. destruct (String.eqb_spec k key) as [->|Ne].
  - destruct H. left. reflexivity.
  - apply IH. intros C. apply H. right. exact C.
Qed.

Lemma lookup_built stod raw es :
  Forall2 (built stod) raw es -> NoDup (map fst raw) ->
  forall key p v, In (key, (p, v)) raw ->
  exists exch f, parse_key stod key = Some (exch, f) /\
                 lookup es key = Some (mkEntry exch f p v).
Proof.
  induction 1 as [|r [k e] raw es (K & exch & f & P & E) _ IH]; intros D key p v Hin;
    [destruct Hin|].
  cbn [map] in D. inversion D as [|? ? Nk D']; subst. cbn [fst snd] in *. subst k e.
  destruct Hin as [->|Hin].
  - cbn [fst snd] in *. exists exch, f. split; [exact P|].
    cbn [lookup]. rewrite String.eqb_refl. reflexivity.
  - destruct (IH D' key p v Hin) as (exch' & f' & P' & L').
    exists exch', f'. split; [exact P'|]. cbn [lookup].
    destruct (String.eqb_spec (fst r) key) as [Eq|Ne]; [|exact L'].
    exfalso. apply Nk. rewrite Eq. apply in_map_iff. exists (key, (p, v)). split; [reflexivity | exact Hin].
Qed.

(** When [build_entries] returns, the map it returns has one entry for every
    key of its argument and no other: under a key are the price and the
    volume the argument has under that key, and the exchange name and fee
    [parse_key] reads from the key. *)
Theorem build_entries_keeps_every_key stod raw entries :
  NoDup (map fst raw) ->
  build_entries stod raw = Some entries ->
  (forall key p v, In (key, (p, v)) raw ->
     exists exch f, parse_key stod key = Some (exch, f) /\
                    lookup entries key = Some (mkEntry exch f p v)) /\
  (forall key, ~ In key (map fst raw) -> lookup entries key = None) /\
  NoDup (map fst entries) /\
  List.length entries = List.length raw.
Proof.
  intros D H. unfold build_entries in H.
  destruct (build_from_fresh stod raw [] entries D ltac:(intros k _ []) H) as (es & -> & F).
  cbn [app]. split; [|split; [|split]].
  - apply (lookup_built _ _ _ F D).
  - intros key N. apply lookup_absent. rewrite (built_keys _ _ _ F). exact N.
  - rewrite (built_keys _ _ _ F). exact D.
  - symmetry. eapply Forall2_length. exact F.
Qed.

Lemma build_entries_keeps_every_key_witness :
  (forall key p v, In (key, (p, v)) raw_bids ->
     exists exch f, parse_key stod_of_main key = Some (exch, f) /\
                    lookup sample_bids key = Some (mkEntry exch f p v)) /\
  (forall key, ~ In key (map fst raw_bids) -> lookup sample_bids key = None) /\
  NoDup (map fst sample_bids) /\
  List.length sample_bids = List.length raw_bids.
Proof.
  apply (build_entries_keeps_every_key stod_of_main raw_bids sample_bids).
  - repeat (constructor; [cbn; intuition discriminate|]). constructor.
  - vm_compute. reflexivity.
Defined.

(** [build_entries] throws exactly when [parse_key] throws on one of the
    keys: one key whose fee text [std::stod] cannot read and no map is
    built. *)
Theorem build_entries_throws_iff stod raw :
  build_entries stod raw = None <->
  exists key val, In (key, val) raw /\ parse_key stod key = None.
Proof.
  unfold build_entries. generalize (@nil (string * Entry)).
  induction raw as [|[key [p v]] raw IH]; intros entries; cbn [build_from].
  - split; [discriminate | intros (k & val & [] & _)].
  - destruct (parse_key stod key) as [[exch f]|] eqn:P.
    + rewrite IH. split.
      * intros (k & val & Hin & Pk). exists k, val. split; [right; exact Hin | exact Pk].
      * intros (k & val & [Hin|Hin] & Pk).
        -- inversion Hin; subst. congruence.
        -- exists k, val. split; assumption.
    + split; [|reflexivity]. intros _. exists key, (p, v). split; [left; reflexivity | exact P].
Qed.

(** [build_entries] on the maps of [main]: the books the runs above start
    from. *)
Example build_entries_of_main :
  build_entries stod_of_main raw_bids = Some sample_bids /\
  build_entries stod_of_main raw_asks = Some sample_asks.
Proof. split; vm_compute; reflexivity. Qed.

(** The conversions on a few values: [long] to [double] rounds to nearest,
    ties to even, and is exact up to [2^53]; [double] to [long] truncates
    toward zero and is undefined out of range. *)
Example of_long_rounds :
  of_long (2 ^ 53) = 9007199254740992%float /\
  of_long (2 ^ 53 + 1) = 9007199254740992%float /\
  of_long (2 ^ 53 + 3) = 9007199254740996%float /\
  of_long (- 7) = (-7)%float /\
  of_long LONG_MAX = 9223372036854775808%float.
Proof. repeat split; vm_compute; reflexivity. Qed.

Example to_long_truncates :
  to_long 2.75 = Some 2 /\ to_long (-2.75) = Some (-2) /\
  to_long 9007199254740996 = Some (2 ^ 53 + 4) /\
  to_long 9223372036854775808 = None /\
  to_long (-9223372036854775808) = Some LONG_MIN /\
  to_long nan = None.
Proof. repeat split; vm_compute; reflexivity. Qed.

(** The run of [main] on its sample books, taken in the order the source
    lists them: four trades, of decreasing profit. *)
Example sample_run :
  exists t1 t2 t3 t4 bids' asks',
    find_best_arbitrage 5 sample_bids sample_asks = Returned [t1; t2; t3; t4] bids' asks' /\
    map (fun t => (buy_exchange t, sell_exchange t, trade_volume t)) [t1; t2; t3; t4]
    = [ ("ex5", "ex4", 3); ("ex1", "ex4", 1); ("ex1", "ex3", 5); ("ex1", "ex2", 10) ]%string /\
    map (fun ke => volume (snd ke)) bids' = [10; 0; 0; 0; 11] /\
    map (fun ke => volume (snd ke)) asks' = [34; 8; 2; 5; 0].
Proof.
  do 6 eexists. split; [vm_compute; reflexivity|]. repeat split.
Qed.
